(** * Word Adventure Game: story authoring, play and the high-score store

    A shallow embedding of [main.py].  Python values are modelled as the
    program has them: a [str] is its sequence of code points, an [int]
    is an unbounded integer, a [dict] read from JSON is an association
    list in insertion order, and [Node] objects form a tree that the
    authoring routine mutates in place.  Terminal input, terminal output,
    the clock and the score file make up an explicit [World]. *)

From Stdlib Require Import String Ascii DecimalString DecimalZ.
From Stdlib Require Import ZArith NArith Bool List Lia Permutation Sorted.
Import ListNotations.

Set Implicit Arguments.
Set Warnings "-register-all".

(** ** Python strings *)

(** A Python [str]: the list of its Unicode code points. *)
Definition pystr := list N.

(** The [str] written by an ASCII literal of the source. *)
Definition str (s : string) : pystr :=
  map N_of_ascii (list_ascii_of_string s).
Arguments str s%_string.

Definition nl : pystr := [10%N].
Definition quote : N := 34%N.
Definition backslash : N := 92%N.

(** [s * n] for a one-character [s]. *)
Definition times (c : N) (n : nat) : pystr := repeat c n.

Fixpoint str_eqb (a b : pystr) : bool :=
  match a, b with
  | [], [] => true
  | x :: a', y :: b' => N.eqb x y && str_eqb a' b'
  | _, _ => false
  end.

(** [a < b] on [str]: lexicographic on code points. *)
Fixpoint str_ltb (a b : pystr) : bool :=
  match a, b with
  | _, [] => false
  | [], _ :: _ => true
  | x :: a', y :: b' =>
      if N.ltb x y then true
      else if N.eqb x y then str_ltb a' b' else false
  end.

Definition in_range (lo hi c : N) : bool := N.leb lo c && N.leb c hi.

(** The code points [str.strip()] removes ([str.isspace]). *)
Definition is_space (c : N) : bool :=
  in_range 9 13 c || in_range 28 32 c || N.eqb c 133 || N.eqb c 160
  || N.eqb c 5760 || in_range 8192 8202 c || in_range 8232 8233 c
  || N.eqb c 8239 || N.eqb c 8287 || N.eqb c 12288.

Fixpoint lstrip (sp : N -> bool) (s : pystr) : pystr :=
  match s with
  | c :: s' => if sp c then lstrip sp s' else s
  | [] => []
  end.

Definition rstrip (sp : N -> bool) (s : pystr) : pystr :=
  rev (lstrip sp (rev s)).

(** [s.strip()] *)
Definition strip (s : pystr) : pystr := rstrip is_space (lstrip is_space s).

(** [s.lower()] on the Latin-1 range.  The case mappings of code points
    above U+00FF are not modelled; none of them yields an ASCII letter
    other than "k", so [lower s] is "y" exactly when Python's is. *)
Definition lower_cp (c : N) : N :=
  if in_range 65 90 c || (in_range 192 222 c && negb (N.eqb c 215))
  then (c + 32)%N else c.

Definition lower (s : pystr) : pystr := map lower_cp s.

Definition is_digit (c : N) : bool := in_range 48 57 c.

Definition digit_val (c : N) : Z := Z.of_N (c - 48).

(** The white space [int()] skips around a number: the C [isspace] set,
    and every non-ASCII Unicode space. *)
Definition int_space (c : N) : bool :=
  in_range 9 13 c || N.eqb c 32 || (is_space c && N.ltb 127 c).

(** Digits of an [int()] argument after the first one: digits, with
    single underscores allowed between two digits. *)
Fixpoint int_digits (acc : Z) (after_underscore : bool) (s : pystr)
  : option Z :=
  match s with
  | [] => if after_underscore then None else Some acc
  | c :: s' =>
      if is_digit c then int_digits (acc * 10 + digit_val c) false s'
      else if N.eqb c 95 && negb after_underscore then int_digits acc true s'
      else None
  end.

Definition int_unsigned (s : pystr) : option Z :=
  match s with
  | c :: s' => if is_digit c then int_digits (digit_val c) false s' else None
  | [] => None
  end.

(** [int(s)]: [None] stands for [ValueError].  ASCII digits only: the
    other Unicode decimal digits that Python also accepts are outside
    the model. *)
Definition int (s : pystr) : option Z :=
  match rstrip int_space (lstrip int_space s) with
  | 45%N :: s' => option_map Z.opp (int_unsigned s')
  | 43%N :: s' => int_unsigned s'
  | s' => int_unsigned s'
  end.

(** [str(z)] for an [int]. *)
Definition repr_int (z : Z) : pystr :=
  str (NilZero.string_of_int (Z.to_int z)).

(** [s[:n]] *)
Definition prefix (n : nat) (s : pystr) : pystr := firstn n s.

(** [format(s, "<w")] for a [str]: padded with spaces on the right. *)
Definition ljust (w : nat) (s : pystr) : pystr :=
  s ++ times 32 (w - length s).

(** ** Number tokens of a JSON text *)

Fixpoint span_digits (s : pystr) : pystr * pystr :=
  match s with
  | c :: s' =>
      if is_digit c then let (d, r) := span_digits s' in (c :: d, r)
      else ([], s)
  | [] => ([], [])
  end.

Definition is_nil {A} (l : list A) : bool :=
  match l with [] => true | _ => false end.

(** An optional minus sign, then "0" or a nonzero digit followed by
    digits. *)
Definition match_integer (s : pystr) : option (pystr * pystr) :=
  let (sign, s1) :=
    match s with
    | 45%N :: s' => ([45%N], s')
    | _ => ([], s)
    end in
  match s1 with
  | c :: r =>
      if N.eqb c 48 then Some (sign ++ [c], r)
      else if in_range 49 57 c
      then let (d, r') := span_digits r in Some (sign ++ c :: d, r')
      else None
  | [] => None
  end.

(** An optional fraction: a point and at least one digit. *)
Definition match_frac (s : pystr) : pystr * pystr :=
  match s with
  | 46%N :: r =>
      match span_digits r with
      | ([], _) => ([], s)
      | (d, r') => (46%N :: d, r')
      end
  | _ => ([], s)
  end.

(** An optional exponent: "e" or "E", an optional sign, at least one
    digit. *)
Definition match_exp (s : pystr) : pystr * pystr :=
  match s with
  | c :: r =>
      if N.eqb c 101 || N.eqb c 69 then
        let (sg, r1) :=
          match r with
          | x :: r' => if N.eqb x 43 || N.eqb x 45 then ([x], r') else ([], r)
          | [] => ([], r)
          end in
        match span_digits r1 with
        | ([], _) => ([], s)
        | (d, r') => (c :: sg ++ d, r')
        end
      else ([], s)
  | [] => ([], s)
  end.

(** The scanner's number pattern at the head of [s]: the matched text,
    whether it has a fraction or an exponent (and so denotes a float),
    and the text after it. *)
Definition match_number (s : pystr) : option (pystr * bool * pystr) :=
  match match_integer s with
  | None => None
  | Some (i, r) =>
      let (f, r1) := match_frac r in
      let (e, r2) := match_exp r1 in
      Some (i ++ f ++ e, negb (is_nil f && is_nil e), r2)
  end.

Definition digits_value (s : pystr) : Z :=
  fold_left (fun acc c => (acc * 10 + digit_val c)%Z) s 0%Z.

(** [int(text)] for a text matched by the integer pattern. *)
Definition int_of_literal (s : pystr) : Z :=
  match s with
  | 45%N :: d => (- digits_value d)%Z
  | d => digits_value d
  end.

(** ** Floats

    The program never computes with a [float]; it can only read one from
    the score file, compare, print and write it back.  Binary64 is kept
    abstract: an interface with the operations Python applies, and the
    one law the score store relies on, that the text [json] writes for
    a float reads back as that float. *)
Class PyFloat := {
  float : Type;
  (** [float(text)] for a number token with a fraction or an exponent *)
  float_of_literal : pystr -> float;
  float_nan : float;
  float_inf : float;
  float_neg_inf : float;
  (** the text [json.dump] writes *)
  floatstr : float -> pystr;
  (** [str(f)], also what [format(f, "<10")] pads *)
  float_str : float -> pystr;
  (** [f == 0.0] *)
  float_is_zero : float -> bool;
  float_eqb : float -> float -> bool;
  float_ltb : float -> float -> bool;
  float_eq_int : float -> Z -> bool;
  float_lt_int : float -> Z -> bool;
  int_lt_float : Z -> float -> bool;
  floatstr_reads_back : forall f,
    (floatstr f = str "NaN" /\ f = float_nan) \/
    (floatstr f = str "Infinity" /\ f = float_inf) \/
    (floatstr f = str "-Infinity" /\ f = float_neg_inf) \/
    (match_number (floatstr f) = Some (floatstr f, true, [])
     /\ float_of_literal (floatstr f) = f)
}.

(** The one-point interpretation, for closed examples: none of them
    contains a float. *)
Definition one_float : PyFloat := {|
  float := unit;
  float_of_literal := fun _ => tt;
  float_nan := tt;
  float_inf := tt;
  float_neg_inf := tt;
  floatstr := fun _ => str "0.0";
  float_str := fun _ => str "0.0";
  float_is_zero := fun _ => true;
  float_eqb := fun _ _ => true;
  float_ltb := fun _ _ => false;
  float_eq_int := fun _ z => Z.eqb z 0;
  float_lt_int := fun _ z => Z.ltb 0 z;
  int_lt_float := fun z _ => Z.ltb z 0;
  floatstr_reads_back := fun f =>
    or_intror (or_intror (or_intror
      (conj eq_refl match f with tt => eq_refl end)))
|}.

(** ** The world around the program *)

(** What reaches the terminal: a [print]ed line, or the prompt of an
    [input] call. *)
Inductive event :=
| Printed (line : pystr)
| Asked (prompt : pystr).

(** [high_scores.json]: absent, present but failing to open or decode
    with the given error text, or holding a text. *)
Inductive file_state :=
| Missing
| Unreadable (msg : pystr)
| Content (text : pystr).

Record World := mkWorld {
  stdin : list pystr;          (* the lines still to be typed *)
  stdout : list event;         (* what was shown so far, oldest first *)
  score_file : file_state;
  write_error : option pystr;  (* the error opening the file for writing raises, if any *)
  now : pystr                  (* the clock, as strftime formats it *)
}.

Definition set_stdin (l : list pystr) (w : World) : World :=
  mkWorld l (stdout w) (score_file w) (write_error w) (now w).

Definition set_stdout (o : list event) (w : World) : World :=
  mkWorld (stdin w) o (score_file w) (write_error w) (now w).

Definition set_score_file (f : file_state) (w : World) : World :=
  mkWorld (stdin w) (stdout w) f (write_error w) (now w).

Definition emit (e : event) (w : World) : World :=
  set_stdout (stdout w ++ [e]) w.

Inductive exn := EOFError | ValueError | AttributeError | TypeError.

(** How a call ends: it returns, it raises, or the model's recursion
    budget ran out before either. *)
Inductive Outcome (A : Type) :=
| Ret (a : A)
| Exc (e : exn)
| Fuel.
Arguments Exc {A} e.
Arguments Fuel {A}.

(** A computation on an object of type [X] that it may mutate in place,
    and on the world.  The object and the world are returned whatever
    the outcome: what was mutated or printed before an exception stays
    so. *)
Definition M (X A : Type) : Type := X * World -> Outcome A * (X * World).

Definition ret {X A} (a : A) : M X A := fun s => (Ret a, s).

Definition bind {X A B} (m : M X A) (k : A -> M X B) : M X B :=
  fun s =>
    match m s with
    | (Ret a, s') => k a s'
    | (Exc e, s') => (Exc e, s')
    | (Fuel, s') => (Fuel, s')
    end.

Definition raise {X A} (e : exn) : M X A := fun s => (Exc e, s).

Definition out_of_fuel {X A} : M X A := fun s => (Fuel, s).

Definition self {X} : M X X := fun s => (Ret (fst s), s).

Definition modify {X} (f : X -> X) : M X unit :=
  fun s => (Ret tt, (f (fst s), snd s)).

Definition world {X} : M X World := fun s => (Ret (snd s), s).

Definition print {X} (line : pystr) : M X unit :=
  fun s => (Ret tt, (fst s, emit (Printed line) (snd s))).

(** [input(prompt)]: shows the prompt and takes the next line; at the
    end of the input it raises [EOFError]. *)
Definition input {X} (prompt : pystr) : M X pystr :=
  fun s =>
    let w := emit (Asked prompt) (snd s) in
    match stdin w with
    | [] => (Exc EOFError, (fst s, w))
    | line :: rest => (Ret line, (fst s, set_stdin rest w))
    end.

(** [int(s)] as a step of a computation. *)
Definition to_int {X} (s : pystr) : M X Z :=
  match int s with
  | Some z => ret z
  | None => raise ValueError
  end.

Notation "x <- m ;; k" := (bind m (fun x => k))
  (at level 61, m at next level, right associativity).
Notation "m ;; k" := (bind m (fun _ => k))
  (at level 61, right associativity).

(** ** Story tree *)

Inductive Node := mkNode {
  story_text : pystr;
  option1_text : pystr;
  option2_text : pystr;
  option1_score : Z;
  option2_score : Z;
  option1 : option Node;
  option2 : option Node
}.

(** [Node(text)] *)
Definition new_node (text : pystr) : Node :=
  mkNode text [] [] 0 0 None None.

Definition set_option1_text (t : pystr) (n : Node) : Node :=
  mkNode (story_text n) t (option2_text n) (option1_score n)
         (option2_score n) (option1 n) (option2 n).

Definition set_option2_text (t : pystr) (n : Node) : Node :=
  mkNode (story_text n) (option1_text n) t (option1_score n)
         (option2_score n) (option1 n) (option2 n).

Definition set_option1_score (z : Z) (n : Node) : Node :=
  mkNode (story_text n) (option1_text n) (option2_text n) z
         (option2_score n) (option1 n) (option2 n).

Definition set_option2_score (z : Z) (n : Node) : Node :=
  mkNode (story_text n) (option1_text n) (option2_text n) (option1_score n)
         z (option1 n) (option2 n).

Definition set_option1 (c : option Node) (n : Node) : Node :=
  mkNode (story_text n) (option1_text n) (option2_text n) (option1_score n)
         (option2_score n) c (option2 n).

Definition set_option2 (c : option Node) (n : Node) : Node :=
  mkNode (story_text n) (option1_text n) (option2_text n) (option1_score n)
         (option2_score n) (option1 n) c.

(** [not current_node.option1 and not current_node.option2]: a [Node]
    object is always true, so a child is false only when it is [None]. *)
Definition is_ending (n : Node) : bool :=
  match option1 n, option2 n with
  | None, None => true
  | _, _ => false
  end.

(** Both children, or neither, at this node and below. *)
Fixpoint both_or_neither (n : Node) : bool :=
  match option1 n, option2 n with
  | None, None => true
  | Some a, Some b => both_or_neither a && both_or_neither b
  | _, _ => false
  end.

(** ** Authoring *)

(** A call [f(current_node.option1)] where [f] starts with
    [if not current_node: return]: nothing happens on [None]; otherwise
    [f] works on the child object, in place. *)
Definition at_option1 (f : M Node unit) : M Node unit :=
  fun s =>
    match option1 (fst s) with
    | None => (Ret tt, s)
    | Some c =>
        let (r, s') := f (c, snd s) in
        (r, (set_option1 (Some (fst s')) (fst s), snd s'))
    end.

Definition at_option2 (f : M Node unit) : M Node unit :=
  fun s =>
    match option2 (fst s) with
    | None => (Ret tt, s)
    | Some c =>
        let (r, s') := f (c, snd s) in
        (r, (set_option2 (Some (fst s')) (fst s), snd s'))
    end.

Definition rule (n : nat) : pystr := times 61 n.

(** [_create_node(current_node, parent_choice)], on the object
    [current_node] refers to.  [fuel] bounds the depth of the recursion. *)
Fixpoint _create_node (fuel : nat) : M Node unit :=
  match fuel with
  | O => out_of_fuel
  | S fuel' =>
      current_node <- self ;;
      print (nl ++ rule 50) ;;
      print (str "CURRENT CONTEXT:") ;;
      print (str "Parent scenario: " ++ story_text current_node) ;;
      answer <- input (nl ++ str "Is this an ending? (y/n): ") ;;
      if str_eqb (lower answer) (str "y") then ret tt
      else
        print (nl ++ rule 25 ++ str " Option 1 " ++ rule 25) ;;
        print (str "Creating Option 1 for the scenario:") ;;
        print ([8594%N; 32%N] ++ story_text current_node) ;;
        print (nl ++ str "What choice will the player see?") ;;
        text1 <- input (str "Option 1 choice text: ") ;;
        modify (set_option1_text text1) ;;
        line1 <- input (str "Score for choosing Option 1: ") ;;
        score1 <- to_int line1 ;;
        modify (set_option1_score score1) ;;
        print (nl ++ str "What happens when they choose this option?") ;;
        option1_result <- input (str "Enter the story text that follows Option 1: ") ;;
        modify (set_option1 (Some (new_node option1_result))) ;;
        print (nl ++ rule 25 ++ str " Option 2 " ++ rule 25) ;;
        print (str "Creating Option 2 for the scenario:") ;;
        print ([8594%N; 32%N] ++ story_text current_node) ;;
        print (nl ++ str "What choice will the player see?") ;;
        text2 <- input (str "Option 2 choice text: ") ;;
        modify (set_option2_text text2) ;;
        line2 <- input (str "Score for choosing Option 2: ") ;;
        score2 <- to_int line2 ;;
        modify (set_option2_score score2) ;;
        print (nl ++ str "What happens when they choose this option?") ;;
        option2_result <- input (str "Enter the story text that follows Option 2: ") ;;
        modify (set_option2 (Some (new_node option2_result))) ;;
        print (nl ++ rule 50) ;;
        print (str "Let's continue the story for Option 1...") ;;
        print (str "Remember, Option 1 was: " ++ text1) ;;
        print (str "And this led to: " ++ option1_result) ;;
        at_option1 (_create_node fuel') ;;
        print (nl ++ rule 50) ;;
        print (str "Let's continue the story for Option 2...") ;;
        print (str "Remember, Option 2 was: " ++ text2) ;;
        print (str "And this led to: " ++ option2_result) ;;
        at_option2 (_create_node fuel')
  end.

Section Model.
Context {F : PyFloat}.

(** ** Values read from and written to the score file *)

(** What [json.load] can return: [None], [bool], [int], [float], [str],
    [list], and [dict] with [str] keys, in insertion order. *)
Inductive json :=
| JNull
| JBool (b : bool)
| JInt (z : Z)
| JFloat (f : float)
| JStr (s : pystr)
| JList (l : list json)
| JDict (d : list (pystr * json)).

(** [k in d] and [d[k]] *)
Fixpoint dict_get (k : pystr) (d : list (pystr * json)) : option json :=
  match d with
  | [] => None
  | (k', v) :: d' => if str_eqb k k' then Some v else dict_get k d'
  end.

(** [d[k] = v]: an existing key keeps its place. *)
Fixpoint dict_set (k : pystr) (v : json) (d : list (pystr * json))
  : list (pystr * json) :=
  match d with
  | [] => [(k, v)]
  | (k', v') :: d' =>
      if str_eqb k k' then (k', v) :: d' else (k', v') :: dict_set k v d'
  end.

(** [dict(pairs)] *)
Definition dict_of_pairs (pairs : list (pystr * json)) : list (pystr * json) :=
  fold_left (fun d kv => dict_set (fst kv) (snd kv) d) pairs [].

(** [bool(v)] *)
Definition truthy (v : json) : bool :=
  match v with
  | JNull => false
  | JBool b => b
  | JInt z => negb (Z.eqb z 0)
  | JFloat f => negb (float_is_zero f)
  | JStr s => negb (is_nil s)
  | JList l => negb (is_nil l)
  | JDict d => negb (is_nil d)
  end.

(** Python numbers: [bool] is a subclass of [int]. *)
Inductive number := NInt (z : Z) | NFloat (f : float).

Definition as_number (v : json) : option number :=
  match v with
  | JBool b => Some (NInt (if b then 1 else 0)%Z)
  | JInt z => Some (NInt z)
  | JFloat f => Some (NFloat f)
  | _ => None
  end.

Definition num_eqb (a b : number) : bool :=
  match a, b with
  | NInt x, NInt y => Z.eqb x y
  | NInt x, NFloat g => float_eq_int g x
  | NFloat f, NInt y => float_eq_int f y
  | NFloat f, NFloat g => float_eqb f g
  end.

Definition num_ltb (a b : number) : bool :=
  match a, b with
  | NInt x, NInt y => Z.ltb x y
  | NInt x, NFloat g => int_lt_float x g
  | NFloat f, NInt y => float_lt_int f y
  | NFloat f, NFloat g => float_ltb f g
  end.

(** [a == b]; never raises. *)
Fixpoint py_eq (a b : json) : bool :=
  match as_number a, as_number b with
  | Some x, Some y => num_eqb x y
  | _, _ =>
      match a, b with
      | JNull, JNull => true
      | JStr s, JStr t => str_eqb s t
      | JList l, JList m =>
          (fix all2 (l m : list json) : bool :=
             match l, m with
             | [], [] => true
             | x :: l', y :: m' => py_eq x y && all2 l' m'
             | _, _ => false
             end) l m
      | JDict d, JDict e =>
          Nat.eqb (length d) (length e) &&
          (fix each (d : list (pystr * json)) : bool :=
             match d with
             | [] => true
             | (k, x) :: d' =>
                 match dict_get k e with
                 | Some y => py_eq x y
                 | None => false
                 end && each d'
             end) d
      | _, _ => false
      end
  end.

(** [a < b]; [None] stands for [TypeError]. *)
Fixpoint py_lt (a b : json) : option bool :=
  match as_number a, as_number b with
  | Some x, Some y => Some (num_ltb x y)
  | _, _ =>
      match a, b with
      | JStr s, JStr t => Some (str_ltb s t)
      | JList l, JList m =>
          (fix first_diff (l m : list json) : option bool :=
             match l, m with
             | _, [] => Some false
             | [], _ :: _ => Some true
             | x :: l', y :: m' =>
                 if py_eq x y then first_diff l' m' else py_lt x y
             end) l m
      | _, _ => None
      end
  end.

(** ** Writing JSON text: [json.dump] with its defaults *)

(** A lower-case hexadecimal digit. *)
Definition hex_digit (n : N) : N :=
  if N.ltb n 10 then (48 + n)%N else (87 + n)%N.

(** ["\\u{0:04x}".format(n)] *)
Definition u_escape (n : N) : pystr :=
  [backslash; 117%N;
   hex_digit (N.land (N.shiftr n 12) 15); hex_digit (N.land (N.shiftr n 8) 15);
   hex_digit (N.land (N.shiftr n 4) 15); hex_digit (N.land n 15)].

(** The replacement of one code point under [ensure_ascii]. *)
Definition escape_cp (c : N) : pystr :=
  if N.eqb c quote then [backslash; quote]
  else if N.eqb c backslash then [backslash; backslash]
  else if N.eqb c 10 then [backslash; 110%N]
  else if N.eqb c 13 then [backslash; 114%N]
  else if N.eqb c 9 then [backslash; 116%N]
  else if N.eqb c 8 then [backslash; 98%N]
  else if N.eqb c 12 then [backslash; 102%N]
  else if in_range 32 126 c then [c]
  else if N.ltb c 65536 then u_escape c
  else
    let n := (c - 65536)%N in
    u_escape (N.lor 55296 (N.land (N.shiftr n 10) 1023))
    ++ u_escape (N.lor 56320 (N.land n 1023)).

Definition encode_str (s : pystr) : pystr :=
  quote :: flat_map escape_cp s ++ [quote].

(** [", ".join(items)] *)
Fixpoint join_items (items : list pystr) : pystr :=
  match items with
  | [] => []
  | [x] => x
  | x :: rest => x ++ str ", " ++ join_items rest
  end.

Fixpoint dumps (v : json) : pystr :=
  match v with
  | JNull => str "null"
  | JBool true => str "true"
  | JBool false => str "false"
  | JInt z => repr_int z
  | JFloat f => floatstr f
  | JStr s => encode_str s
  | JList l => 91%N :: join_items (map dumps l) ++ [93%N]
  | JDict d =>
      123%N ::
      join_items (map (fun kv => encode_str (fst kv) ++ str ": " ++ dumps (snd kv)) d)
      ++ [125%N]
  end.

(** ** The game object *)

(** [self.high_scores] is whatever [json.load] returned: a list of
    records in a file this program wrote, any JSON value otherwise. *)
Record AdventureGame := mkGame {
  root : option Node;
  high_scores : json
}.

Definition set_root (r : option Node) (g : AdventureGame) : AdventureGame :=
  mkGame r (high_scores g).

Definition set_high_scores (v : json) (g : AdventureGame) : AdventureGame :=
  mkGame (root g) v.

(** A loop or recursion that takes a line of input at every turn runs
    for at most one turn more than there are lines left. *)
Definition with_fuel {X A} (f : nat -> M X A) : M X A :=
  fun s => f (S (length (stdin (snd s)))) s.

(** [self._create_node(self.root, ...)] *)
Definition at_root (f : M Node unit) : M AdventureGame unit :=
  fun s =>
    match root (fst s) with
    | None => (Ret tt, s)
    | Some r =>
        let (o, s') := f (r, snd s) in
        (o, (set_root (Some (fst s')) (fst s), snd s'))
    end.

Definition create_game : M AdventureGame unit :=
  print (nl ++ str "Let's create your adventure game!") ;;
  print (str "Start with the initial scenario:") ;;
  initial_text <- input (str "Enter the starting scenario: ") ;;
  modify (set_root (Some (new_node initial_text))) ;;
  at_root (with_fuel _create_node) ;;
  print (nl ++ str "Game creation completed!").

(** [save_high_scores]: the file is rewritten whole; a failure to open
    it is reported and changes nothing. *)
Definition save_high_scores : M AdventureGame unit :=
  g <- self ;;
  w <- world ;;
  match write_error w with
  | None =>
      fun s => (Ret tt, (fst s, set_score_file (Content (dumps (high_scores g))) (snd s)))
  | Some e => print (nl ++ str "Error saving high scores: " ++ e)
  end.

(** ** Play *)

(** An entry of [choices_made]. *)
Record Step := mkStep { choice : pystr; outcome : pystr }.

(** [while not player_name.strip(): player_name = input(...)] *)
Fixpoint ask_name {X} (fuel : nat) (player_name : pystr) : M X pystr :=
  match fuel with
  | O => out_of_fuel
  | S fuel' =>
      if is_nil (strip player_name) then
        again <- input (str "Name cannot be empty. Please enter your name: ") ;;
        ask_name fuel' again
      else ret player_name
  end.

(** The [while current_node:] loop of [play_game], from the values its
    three variables hold when a turn starts to the values they hold
    when it ends.  [current_node] always refers to a node: taking a
    missing child raises before the assignment. *)
Fixpoint play_loop {X} (fuel : nat) (current_node : Node) (total_score : Z)
    (choices_made : list Step) : M X (Z * list Step) :=
  match fuel with
  | O => out_of_fuel
  | S fuel' =>
      print (nl ++ rule 50) ;;
      print (story_text current_node) ;;
      if is_ending current_node then
        print (nl ++ str "The End!") ;;
        ret (total_score, choices_made)
      else
        print (nl ++ str "Your options:") ;;
        print (str "1: " ++ option1_text current_node) ;;
        print (str "2: " ++ option2_text current_node) ;;
        picked <- input (nl ++ str "Enter your choice (1/2): ") ;;
        if str_eqb picked (str "1") then
          match option1 current_node with
          | None => raise AttributeError
          | Some next =>
              play_loop fuel' next
                (total_score + option1_score current_node)%Z
                (choices_made ++ [mkStep (option1_text current_node) (story_text next)])
          end
        else if str_eqb picked (str "2") then
          match option2 current_node with
          | None => raise AttributeError
          | Some next =>
              play_loop fuel' next
                (total_score + option2_score current_node)%Z
                (choices_made ++ [mkStep (option2_text current_node) (story_text next)])
          end
        else
          print (str "Invalid choice! Please choose 1 or 2") ;;
          play_loop fuel' current_node total_score choices_made
  end.

(** [for i, choice in enumerate(choices_made, 1): ...] *)
Fixpoint print_journey {X} (i : Z) (choices_made : list Step) : M X unit :=
  match choices_made with
  | [] => ret tt
  | c :: rest =>
      print (nl ++ str "Step " ++ repr_int i ++ str ":") ;;
      print (str "You chose: " ++ choice c) ;;
      print (str "Result: " ++ outcome c) ;;
      print_journey (i + 1)%Z rest
  end.

Definition score_entry (player_name : pystr) (total_score : Z) (date : pystr)
  : json :=
  JDict [(str "player_name", JStr player_name);
         (str "score", JInt total_score);
         (str "date", JStr date)].

(** [self.high_scores.append(entry)] *)
Definition append_score (entry : json) : M AdventureGame unit :=
  g <- self ;;
  match high_scores g with
  | JList l => modify (set_high_scores (JList (l ++ [entry])))
  | _ => raise AttributeError
  end.

Definition play_game : M AdventureGame unit :=
  g <- self ;;
  match root g with
  | None => print (nl ++ str "No game has been created yet!")
  | Some root_node =>
      print (nl ++ str "Welcome to the Adventure Game!") ;;
      first <- input (str "Please enter your name: ") ;;
      player_name <- with_fuel (fun fuel => ask_name fuel first) ;;
      played <- with_fuel (fun fuel => play_loop fuel root_node 0 []) ;;
      let (total_score, choices_made) := played : Z * list Step in
      print (nl ++ str "Game Over, " ++ player_name ++ str "!") ;;
      print (str "Your total score: " ++ repr_int total_score) ;;
      print (nl ++ str "Your journey:") ;;
      print_journey 1 choices_made ;;
      w <- world ;;
      append_score (score_entry player_name total_score (now w)) ;;
      save_high_scores
  end.

(** ** The list of high scores *)

(** [try: body except Exception: handler] *)
Definition attempt {X A} (body handler : M X A) : M X A :=
  fun s =>
    match body s with
    | (Exc _, s') => handler s'
    | done => done
    end.

(** [for entry in v]: the items a loop over [v] visits; [None] stands
    for the [TypeError] of a value that is not iterable. *)
Definition iterate (v : json) : option (list json) :=
  match v with
  | JList l => Some l
  | JDict d => Some (map (fun kv => JStr (fst kv)) d)
  | JStr s => Some (map (fun c => JStr [c]) s)
  | _ => None
  end.

(** The record an old-format score is upgraded to. *)
Definition upgraded (entry : json) : json :=
  JDict [(str "player_name", JStr (str "Unknown"));
         (str "score", entry);
         (str "date", JStr (str "Unknown"))].

(** What one step of the loop over the entries appends to
    [valid_scores]: the entry itself when it is a [dict] with a "score"
    key, its upgrade when it is an [int] (a [bool] is one) or a [float],
    nothing otherwise. *)
Definition normalize_entry (entry : json) : list json :=
  match entry with
  | JDict d =>
      match dict_get (str "score") d with
      | Some _ => [entry]
      | None => []
      end
  | JBool _ | JInt _ | JFloat _ => [upgraded entry]
  | _ => []
  end.

Definition normalize (entries : list json) : list json :=
  flat_map normalize_entry entries.

(** [(x["score"], x.get("date", ""))]; [None] when [x] has no "score". *)
Definition sort_key (x : json) : option (json * json) :=
  match x with
  | JDict d =>
      match dict_get (str "score") d with
      | Some score =>
          Some (score,
                match dict_get (str "date") d with
                | Some date => date
                | None => JStr []
                end)
      | None => None
      end
  | _ => None
  end.

(** [a < b] on two keys, as tuples compare: the first components that
    are not equal decide. *)
Definition key_lt (a b : json * json) : option bool :=
  if negb (py_eq (fst a) (fst b)) then py_lt (fst a) (fst b)
  else if negb (py_eq (snd a) (snd b)) then py_lt (snd a) (snd b)
  else Some false.

(** Keys paired with their items, or [None] when a key cannot be taken. *)
Fixpoint decorate (l : list json) : option (list (json * json * json)) :=
  match l with
  | [] => Some []
  | x :: l' =>
      match sort_key x, decorate l' with
      | Some k, Some d => Some ((k, x) :: d)
      | _, _ => None
      end
  end.

(** Puts [x] in an ascending list after the items not above it. *)
Fixpoint insert_key (x : json * json * json) (l : list (json * json * json))
  : option (list (json * json * json)) :=
  match l with
  | [] => Some [x]
  | y :: l' =>
      match key_lt (fst x) (fst y) with
      | None => None
      | Some true => Some (x :: l)
      | Some false => option_map (cons y) (insert_key x l')
      end
  end.

(** A stable ascending sort by insertion, left to right. *)
Fixpoint sort_ascending (l done : list (json * json * json))
  : option (list (json * json * json)) :=
  match l with
  | [] => Some done
  | x :: l' =>
      match insert_key x done with
      | Some done' => sort_ascending l' done'
      | None => None
      end
  end.

(** [sorted(l, key=..., reverse=True)], done as [list.sort] does it:
    reverse, sort ascending and stably, reverse.  [None] stands for the
    [TypeError] of two keys that do not compare.  When every two keys
    compare, every stable sort gives this result; which pairs get
    compared, and so whether a list holding two keys that do not compare
    raises, follows plain insertion here. *)
Definition sorted_scores (valid_scores : list json) : option (list json) :=
  match decorate valid_scores with
  | Some d => option_map (fun s => rev (map snd s)) (sort_ascending (rev d) [])
  | None => None
  end.

(** [format(v, "<w")]; [None] stands for [TypeError]. *)
Definition format_left (w : nat) (v : json) : option pystr :=
  match v with
  | JStr s => Some (ljust w s)
  | JInt z => Some (ljust w (repr_int z))
  | JBool b => Some (ljust w (repr_int (if b then 1 else 0)))
  | JFloat f => Some (ljust w (float_str f))
  | JNull | JList _ | JDict _ => None
  end.

Definition get_default (k : pystr) (d : list (pystr * json)) (default : json)
  : json :=
  match dict_get k d with
  | Some v => v
  | None => default
  end.

(** A line of the table; [None] when the name cannot be sliced and
    formatted, or the score or the date cannot be formatted. *)
Definition table_row (score : json) : option pystr :=
  match score with
  | JDict d =>
      match get_default (str "player_name") d (JStr (str "Unknown")),
            dict_get (str "score") d,
            format_left 20 (get_default (str "date") d (JStr (str "Unknown")))
      with
      | JStr name, Some points, Some date_cell =>
          match format_left 10 points with
          | Some points_cell =>
              Some (ljust 20 (prefix 20 name) ++ str " " ++ points_cell
                    ++ str " " ++ date_cell)
          | None => None
          end
      | _, _, _ => None
      end
  | _ => None
  end.

Definition table_head : pystr :=
  nl ++ ljust 20 (str "Player") ++ str " " ++ ljust 10 (str "Score")
  ++ str " " ++ ljust 20 (str "Date").

Fixpoint print_rows {X} (rows : list json) : M X unit :=
  match rows with
  | [] => ret tt
  | score :: rest =>
      match table_row score with
      | Some line => print line ;; print_rows rest
      | None => raise TypeError
      end
  end.

Definition or_raise {X A} (e : exn) (v : option A) : M X A :=
  match v with
  | Some a => ret a
  | None => raise e
  end.

Definition show_high_scores : M AdventureGame unit :=
  g <- self ;;
  if negb (truthy (high_scores g)) then
    print (nl ++ str "No scores recorded yet!")
  else
    attempt
      (entries <- or_raise TypeError (iterate (high_scores g)) ;;
       let valid_scores := normalize entries in
       modify (set_high_scores (JList valid_scores)) ;;
       print (nl ++ str "High Scores:") ;;
       sorted <- or_raise TypeError (sorted_scores valid_scores) ;;
       print table_head ;;
       print (rule 50) ;;
       print_rows sorted ;;
       save_high_scores)
      (print (nl ++ str "Error displaying high scores. Clearing corrupted scores.") ;;
       modify (set_high_scores (JList [])) ;;
       save_high_scores).

(** ** Reading JSON text: [json.load] with its defaults *)

Definition is_ws (c : N) : bool :=
  N.eqb c 32 || N.eqb c 9 || N.eqb c 10 || N.eqb c 13.

Definition skip_ws (s : pystr) : pystr := lstrip is_ws s.

Definition hex_value (c : N) : option N :=
  if in_range 48 57 c then Some (c - 48)%N
  else if in_range 97 102 c then Some (c - 87)%N
  else if in_range 65 70 c then Some (c - 55)%N
  else None.

(** The number written by four hexadecimal digits. *)
Definition hex4 (a b c d : N) : option N :=
  match hex_value a, hex_value b, hex_value c, hex_value d with
  | Some x, Some y, Some z, Some t =>
      Some (((x * 16 + y) * 16 + z) * 16 + t)%N
  | _, _, _, _ => None
  end.

(** The character a one-letter escape stands for. *)
Definition unescape (e : N) : option N :=
  if N.eqb e quote then Some quote
  else if N.eqb e backslash then Some backslash
  else if N.eqb e 47 then Some 47%N
  else if N.eqb e 98 then Some 8%N
  else if N.eqb e 102 then Some 12%N
  else if N.eqb e 110 then Some 10%N
  else if N.eqb e 114 then Some 13%N
  else if N.eqb e 116 then Some 9%N
  else None.

Definition push (c : N) (scanned : option (pystr * pystr))
  : option (pystr * pystr) :=
  match scanned with
  | Some (t, rest) => Some (c :: t, rest)
  | None => None
  end.

(** The string that starts after an opening quote, and the text after
    its closing quote; strict mode: a raw control character is an error.
    A high surrogate escape directly followed by a low surrogate escape
    makes one code point. *)
Fixpoint scan_string (s : pystr) : option (pystr * pystr) :=
  match s with
  | [] => None
  | c :: r =>
      if N.eqb c quote then Some ([], r)
      else if N.eqb c backslash then
        match r with
        | [] => None
        | e :: r1 =>
            if N.eqb e 117 then
              match r1 with
              | h1 :: h2 :: h3 :: h4 :: r2 =>
                  match hex4 h1 h2 h3 h4 with
                  | None => None
                  | Some uni =>
                      if in_range 55296 56319 uni then
                        match r2 with
                        | b :: u :: k1 :: k2 :: k3 :: k4 :: r3 =>
                            if N.eqb b backslash && N.eqb u 117 then
                              match hex4 k1 k2 k3 k4 with
                              | None => None
                              | Some uni2 =>
                                  if in_range 56320 57343 uni2 then
                                    push (65536 + N.lor (N.shiftl (uni - 55296) 10)
                                                        (uni2 - 56320))%N
                                         (scan_string r3)
                                  else push uni (scan_string r2)
                              end
                            else push uni (scan_string r2)
                        | _ => push uni (scan_string r2)
                        end
                      else push uni (scan_string r2)
                  end
              | _ => None
              end
            else
              match unescape e with
              | Some ch => push ch (scan_string r1)
              | None => None
              end
        end
      else if N.ltb c 32 then None
      else push c (scan_string r)
  end.

(** [s] without the prefix [p], when it starts with it. *)
Fixpoint strip_prefix (p s : pystr) : option pystr :=
  match p with
  | [] => Some s
  | x :: p' =>
      match s with
      | y :: s' => if N.eqb x y then strip_prefix p' s' else None
      | [] => None
      end
  end.

(** A value that is neither a string nor a container, in the order the
    scanner tries them. *)
Definition scan_atom (s : pystr) : option (json * pystr) :=
  match strip_prefix (str "null") s with
  | Some r => Some (JNull, r)
  | None =>
  match strip_prefix (str "true") s with
  | Some r => Some (JBool true, r)
  | None =>
  match strip_prefix (str "false") s with
  | Some r => Some (JBool false, r)
  | None =>
  match match_number s with
  | Some (text, is_float, r) =>
      Some (if is_float then JFloat (float_of_literal text)
            else JInt (int_of_literal text), r)
  | None =>
  match strip_prefix (str "NaN") s with
  | Some r => Some (JFloat float_nan, r)
  | None =>
  match strip_prefix (str "Infinity") s with
  | Some r => Some (JFloat float_inf, r)
  | None =>
  match strip_prefix (str "-Infinity") s with
  | Some r => Some (JFloat float_neg_inf, r)
  | None => None
  end end end end end end end.

(** The result of scanning: a value and the text after it, a syntax
    error, or the model's recursion budget used up. *)
Inductive scan (A : Type) :=
| Scanned (a : A) (rest : pystr)
| Malformed
| Starved.
Arguments Malformed {A}.
Arguments Starved {A}.

Definition scan_then {A B} (r : scan A) (k : A -> pystr -> scan B) : scan B :=
  match r with
  | Scanned a rest => k a rest
  | Malformed => Malformed
  | Starved => Starved
  end.

(** [parse_value]: the value at the head of [s].  [parse_elements]: the
    items of an array from its first item to its closing bracket.
    [parse_members]: the pairs of an object from just after the opening
    quote of its first key to its closing brace. *)
Fixpoint parse_value (fuel : nat) (s : pystr) : scan json :=
  match fuel with
  | O => Starved
  | S fuel' =>
      match s with
      | [] => Malformed
      | c :: r =>
          if N.eqb c quote then
            match scan_string r with
            | Some (t, r') => Scanned (JStr t) r'
            | None => Malformed
            end
          else if N.eqb c 123 then
            match skip_ws r with
            | c' :: r1 =>
                if N.eqb c' 125 then Scanned (JDict []) r1
                else if N.eqb c' quote then
                  scan_then (parse_members fuel' r1)
                    (fun pairs r2 => Scanned (JDict (dict_of_pairs pairs)) r2)
                else Malformed
            | [] => Malformed
            end
          else if N.eqb c 91 then
            match skip_ws r with
            | c' :: r1 =>
                if N.eqb c' 93 then Scanned (JList []) r1
                else
                  scan_then (parse_elements fuel' (c' :: r1))
                    (fun items r2 => Scanned (JList items) r2)
            | [] => Malformed
            end
          else
            match scan_atom s with
            | Some (v, r') => Scanned v r'
            | None => Malformed
            end
      end
  end
with parse_elements (fuel : nat) (s : pystr) : scan (list json) :=
  match fuel with
  | O => Starved
  | S fuel' =>
      scan_then (parse_value fuel' s) (fun v r =>
        match skip_ws r with
        | c :: r1 =>
            if N.eqb c 93 then Scanned [v] r1
            else if N.eqb c 44 then
              scan_then (parse_elements fuel' (skip_ws r1))
                (fun items r2 => Scanned (v :: items) r2)
            else Malformed
        | [] => Malformed
        end)
  end
with parse_members (fuel : nat) (s : pystr) : scan (list (pystr * json)) :=
  match fuel with
  | O => Starved
  | S fuel' =>
      match scan_string s with
      | None => Malformed
      | Some (key, r) =>
          match skip_ws r with
          | c :: r1 =>
              if N.eqb c 58 then
                scan_then (parse_value fuel' (skip_ws r1)) (fun v r2 =>
                  match skip_ws r2 with
                  | c2 :: r3 =>
                      if N.eqb c2 125 then Scanned [(key, v)] r3
                      else if N.eqb c2 44 then
                        match skip_ws r3 with
                        | q :: r4 =>
                            if N.eqb q quote then
                              scan_then (parse_members fuel' r4)
                                (fun pairs r5 => Scanned ((key, v) :: pairs) r5)
                            else Malformed
                        | [] => Malformed
                        end
                      else Malformed
                  | [] => Malformed
                  end)
              else Malformed
          | [] => Malformed
          end
      end
  end.

(** [json.loads(text)]: one value, white space allowed around it;
    [None] stands for [JSONDecodeError]. *)
Definition loads (text : pystr) : option json :=
  match parse_value (2 * length text + 1) (skip_ws text) with
  | Scanned v rest => if is_nil (skip_ws rest) then Some v else None
  | _ => None
  end.

(** [load_high_scores]: any readable file that holds JSON gives its
    value; a missing file gives the empty list silently, any other
    failure gives the empty list with a message. *)
Definition load_high_scores : M AdventureGame unit :=
  w <- world ;;
  match score_file w with
  | Content text =>
      match loads text with
      | Some v => modify (set_high_scores v)
      | None =>
          print (nl ++ str "Error loading high scores file. Starting with empty scores.") ;;
          modify (set_high_scores (JList []))
      end
  | Missing => modify (set_high_scores (JList []))
  | Unreadable e =>
      print (nl ++ str "Error loading high scores: " ++ e) ;;
      modify (set_high_scores (JList []))
  end.

(** [AdventureGame()] *)
Definition new_game : M AdventureGame unit :=
  modify (fun _ => mkGame None (JList [])) ;;
  load_high_scores.

(** ** What the terminal shows, for stating properties *)

(** Shown by [_create_node] up to its question. *)
Definition context_events (n : Node) : list event :=
  [Printed (nl ++ rule 50);
   Printed (str "CURRENT CONTEXT:");
   Printed (str "Parent scenario: " ++ story_text n);
   Asked (nl ++ str "Is this an ending? (y/n): ")].

(** A valid choice of the player. *)
Inductive pick := One | Two.

(** The line typed for it. *)
Definition pick_line (p : pick) : pystr :=
  match p with One => str "1" | Two => str "2" end.

Definition taken (p : pick) (n : Node) : option Node :=
  match p with One => option1 n | Two => option2 n end.

Definition label (p : pick) (n : Node) : pystr :=
  match p with One => option1_text n | Two => option2_text n end.

Definition delta (p : pick) (n : Node) : Z :=
  match p with One => option1_score n | Two => option2_score n end.

(** The node a sequence of choices leads to, if every chosen child is
    there. *)
Fixpoint follow (n : Node) (path : list pick) {struct path} : option Node :=
  match path with
  | [] => Some n
  | p :: rest =>
      match taken p n with
      | Some c => follow c rest
      | None => None
      end
  end.

(** The score deltas met along a path, in order. *)
Fixpoint path_deltas (n : Node) (path : list pick) {struct path} : list Z :=
  match path with
  | [] => []
  | p :: rest =>
      delta p n ::
      match taken p n with
      | Some c => path_deltas c rest
      | None => []
      end
  end.

(** The pairs (label chosen, text of the child reached) along a path. *)
Fixpoint path_steps (n : Node) (path : list pick) {struct path}
  : list Step :=
  match path with
  | [] => []
  | p :: rest =>
      match taken p n with
      | Some c => mkStep (label p n) (story_text c) :: path_steps c rest
      | None => []
      end
  end.

Definition sum_Z (l : list Z) : Z := fold_left Z.add l 0%Z.

(** A turn of play up to the test for an ending. *)
Definition scene_events (n : Node) : list event :=
  [Printed (nl ++ rule 50); Printed (story_text n)].

(** A turn of play up to the prompt for a choice. *)
Definition options_events (n : Node) : list event :=
  scene_events n ++
  [Printed (nl ++ str "Your options:");
   Printed (str "1: " ++ option1_text n);
   Printed (str "2: " ++ option2_text n);
   Asked (nl ++ str "Enter your choice (1/2): ")].

(** A turn of play that ends on a rejected line. *)
Definition invalid_events (n : Node) : list event :=
  options_events n ++ [Printed (str "Invalid choice! Please choose 1 or 2")].

(** The turns of play along a path that ends on an ending. *)
Fixpoint play_events (n : Node) (path : list pick) {struct path}
  : list event :=
  match path with
  | [] => scene_events n ++ [Printed (nl ++ str "The End!")]
  | p :: rest =>
      options_events n ++
      match taken p n with
      | Some c => play_events c rest
      | None => []
      end
  end.

(** The listing of the journey. *)
Fixpoint journey_events (i : Z) (steps : list Step) : list event :=
  match steps with
  | [] => []
  | c :: rest =>
      [Printed (nl ++ str "Step " ++ repr_int i ++ str ":");
       Printed (str "You chose: " ++ choice c);
       Printed (str "Result: " ++ outcome c)]
      ++ journey_events (i + 1)%Z rest
  end.

(** What [play_game] shows from its welcome to the end of the listing. *)
Definition game_events (player_name : pystr) (n : Node) (path : list pick)
  : list event :=
  [Printed (nl ++ str "Welcome to the Adventure Game!");
   Asked (str "Please enter your name: ")]
  ++ play_events n path ++
  [Printed (nl ++ str "Game Over, " ++ player_name ++ str "!");
   Printed (str "Your total score: " ++ repr_int (sum_Z (path_deltas n path)));
   Printed (nl ++ str "Your journey:")]
  ++ journey_events 1 (path_steps n path).

(** The score and the date of a well-formed record: an [int] under
    "score", a [str] (or nothing) under "date". *)
Definition score_of (x : json) : option Z :=
  match x with
  | JDict d =>
      match dict_get (str "score") d with
      | Some (JInt z) => Some z
      | _ => None
      end
  | _ => None
  end.

Definition date_of (x : json) : option pystr :=
  match x with
  | JDict d =>
      match dict_get (str "date") d with
      | Some (JStr s) => Some s
      | None => Some []
      | _ => None
      end
  | _ => None
  end.

Definition well_formed (x : json) : Prop :=
  (exists z, score_of x = Some z) /\ (exists s, date_of x = Some s).

(** The order of the table: a higher score first; with equal scores, the
    date that is not the smaller string first. *)
Definition shown_before (x y : json) : Prop :=
  exists a s b t,
    score_of x = Some a /\ date_of x = Some s /\
    score_of y = Some b /\ date_of y = Some t /\
    ((b < a)%Z \/ (a = b /\ str_ltb s t = false)).

(** The order of two keys made of an [int] and a [str]. *)
Definition plain_lt (a b : Z * pystr) : Prop :=
  (fst a < fst b)%Z \/ (fst a = fst b /\ str_ltb (snd a) (snd b) = true).

Definition plain (x : json * json * json) (k : Z * pystr) : Prop :=
  fst x = (JInt (fst k), JStr (snd k)).

(** [x] is not above [y]. *)
Definition not_above (x y : json * json * json) : Prop :=
  key_lt (fst y) (fst x) = Some false.

Definition all_plain (l : list (json * json * json)) : Prop :=
  Forall (fun x => exists k, plain x k) l.


(** Items paired with their own key. *)
Definition keyed (x : json * json * json) : Prop := sort_key (snd x) = Some (fst x).


(** ** Values that [json] writes and reads back unchanged *)

(** A Unicode scalar value: a code point that is not a surrogate. *)
Definition is_scalar (c : N) : bool :=
  N.ltb c 1114112 && negb (in_range 55296 57343 c).

Definition clean_str (s : pystr) : Prop := Forall (fun c => is_scalar c = true) s.

(** Every string is made of scalar values and no [dict] has a key
    twice. *)
Fixpoint clean (v : json) : Prop :=
  match v with
  | JStr s => clean_str s
  | JList l => (fix all (l : list json) : Prop :=
                  match l with
                  | [] => True
                  | x :: l' => clean x /\ all l'
                  end) l
  | JDict d => NoDup (map fst d) /\
               (fix all (d : list (pystr * json)) : Prop :=
                  match d with
                  | [] => True
                  | kv :: d' => (clean_str (fst kv) /\ clean (snd kv)) /\ all d'
                  end) d
  | _ => True
  end.

(** ** The menu *)

(** The [while True:] loop of [main].  [fuel] bounds the number of menu
    rounds; every round takes a line of input. *)
Fixpoint main_loop (fuel : nat) : M AdventureGame unit :=
  match fuel with
  | O => out_of_fuel
  | S fuel' =>
      print (nl ++ str "=== Word Adventure Game ===") ;;
      print (str "1. Create New Game") ;;
      print (str "2. Play Game") ;;
      print (str "3. View High Scores") ;;
      print (str "4. Exit") ;;
      picked <- input (nl ++ str "Enter your choice (1-4): ") ;;
      if str_eqb picked (str "1") then create_game ;; main_loop fuel'
      else if str_eqb picked (str "2") then play_game ;; main_loop fuel'
      else if str_eqb picked (str "3") then show_high_scores ;; main_loop fuel'
      else if str_eqb picked (str "4") then print (nl ++ str "Thanks for playing!")
      else
        print (nl ++ str "Invalid choice! Please try again.") ;;
        main_loop fuel'
  end.

(** [main()]: a new game object, then the menu. *)
Definition main : M AdventureGame unit :=
  new_game ;;
  with_fuel main_loop.

(** What a menu round shows up to its prompt. *)
Definition menu_events : list event :=
  [Printed (nl ++ str "=== Word Adventure Game ===");
   Printed (str "1. Create New Game");
   Printed (str "2. Play Game");
   Printed (str "3. View High Scores");
   Printed (str "4. Exit");
   Asked (nl ++ str "Enter your choice (1-4): ")].

(** ** Scripts of an authoring session *)

(** [scripted n lines]: typing [lines] at the prompts of [_create_node],
    started on a new node with the text of [n], builds [n].  An ending
    takes the answer "y" or "Y"; any other answer is followed by the
    label, the score and the resulting text of option 1, the same for
    option 2, the script of the first subtree and then the script of the
    second. *)
Inductive scripted : Node -> list pystr -> Prop :=
| scripted_ending text answer :
    str_eqb (lower answer) (str "y") = true ->
    scripted (new_node text) [answer]
| scripted_options text answer text1 line1 score1 text2 line2 score2
                   child1 child2 lines1 lines2 :
    str_eqb (lower answer) (str "y") = false ->
    int line1 = Some score1 -> int line2 = Some score2 ->
    scripted child1 lines1 -> scripted child2 lines2 ->
    scripted
      (mkNode text text1 text2 score1 score2 (Some child1) (Some child2))
      (answer :: text1 :: line1 :: story_text child1
              :: text2 :: line2 :: story_text child2 :: lines1 ++ lines2).

(** The exceptions a session at the terminal can end with. *)
Definition input_error (e : exn) : Prop := e = EOFError \/ e = ValueError.

Definition play_error (e : exn) : Prop := e = EOFError \/ e = AttributeError.

(** [m] raises nothing but exceptions in [P]. *)
Definition raises_only {X A} (P : exn -> Prop) (m : M X A) : Prop :=
  forall s e, fst (m s) = Exc e -> P e.

(** [m] touches nothing but the terminal: the object it works on, the
    score file and the clock are left as they were. *)
Definition terminal_only {X A} (m : M X A) : Prop :=
  forall s,
    fst (snd (m s)) = fst s /\
    score_file (snd (snd (m s))) = score_file (snd s) /\
    write_error (snd (snd (m s))) = write_error (snd s) /\
    now (snd (snd (m s))) = now (snd s).

(** [m] keeps the story; it ends, and when it ends on an exception that
    is [EOFError] or [AttributeError] and the game object and the score
    file are as they were. *)
Definition safe_play {A} (m : M AdventureGame A) : Prop :=
  forall s,
    root (fst (snd (m s))) = root (fst s) /\
    match fst (m s) with
    | Ret _ => True
    | Exc e =>
        play_error e /\ fst (snd (m s)) = fst s /\
        score_file (snd (snd (m s))) = score_file (snd s)
    | Fuel => False
    end.

(** A line the menu does not know. *)
Definition not_a_menu_choice (line : pystr) : Prop :=
  line <> str "1" /\ line <> str "2" /\ line <> str "3" /\ line <> str "4".


Definition is_some {A} (o : option A) : bool :=
  match o with Some _ => true | None => false end.

(** What [show_high_scores] keeps of a non-empty [self.high_scores]:
    the normalized entries when the value can be iterated, its
    normalized entries can be sorted and every row of the table can be
    formatted; nothing otherwise. *)
Definition kept_scores (v : json) : list json :=
  match iterate v with
  | Some entries =>
      match sorted_scores (normalize entries) with
      | Some sorted =>
          if forallb (fun x => is_some (table_row x)) sorted
          then normalize entries else []
      | None => []
      end
  | None => []
  end.

(** The exceptions that can end the program. *)
Definition session_error (e : exn) : Prop :=
  e = EOFError \/ e = ValueError \/ e = AttributeError.
(** ** Reading a written value back *)

(** The text after a value of a container starts with a comma or the
    closing bracket; the text after the whole document is empty. *)
Definition at_delimiter (rest : pystr) : Prop :=
  match rest with
  | [] => True
  | c :: _ => c = 44%N \/ c = 93%N \/ c = 125%N
  end.

(** Values that are neither strings nor containers. *)
Definition atom (v : json) : Prop :=
  match v with
  | JStr _ | JList _ | JDict _ => False
  | _ => True
  end.

(** The first character of a value's text: not white space, not a
    closing bracket. *)
Definition starts_value (s : pystr) : Prop :=
  exists c s', s = c :: s' /\ is_ws c = false /\ N.eqb c 93 = false.

(** What reading back a value's text means, with the budget it takes. *)
Definition reads_back (v : json) : Prop :=
  forall fuel rest,
    2 * length (dumps v) <= fuel -> at_delimiter rest ->
    parse_value fuel (dumps v ++ rest) = Scanned v rest.

(** The text of one member of an object. *)
Definition member_text (kv : pystr * json) : pystr :=
  encode_str (fst kv) ++ str ": " ++ dumps (snd kv).

(** ** Records in the table *)

(** A record as [play_game] writes it, from the name, the total and
    the date. *)
Definition record_of (r : pystr * Z * pystr) : json :=
  score_entry (fst (fst r)) (snd (fst r)) (snd r).

(** ["{:<20} {:<10} {:<20}".format(name[:20], total, date)] *)
Definition table_line (r : pystr * Z * pystr) : pystr :=
  ljust 20 (prefix 20 (fst (fst r))) ++ str " " ++
  ljust 10 (repr_int (snd (fst r))) ++ str " " ++ ljust 20 (snd r).

(** ** What a session keeps *)

(** The game object as a session keeps it: the story, when there is
    one, has both children or neither at every node, and the scores are
    a list. *)
Definition sound (g : AdventureGame) : Prop :=
  match root g with
  | Some r => both_or_neither r = true
  | None => True
  end /\ exists l, high_scores g = JList l.

(** Started on a sound game object, [m] leaves a sound one when it
    returns and raises nothing but exceptions in [P]. *)
Definition guarded {A} (P : exn -> Prop) (m : M AdventureGame A) : Prop :=
  forall s, sound (fst s) ->
    match fst (m s) with
    | Ret _ => sound (fst (snd (m s)))
    | Exc e => P e
    | Fuel => True
    end.


End Model.

(** ** Concrete inputs for the closed examples *)

(** A world with the given lines to type, nothing shown yet, no score
    file, a writable directory and a fixed clock. *)
Definition typed (lines : list pystr) : World :=
  mkWorld lines [] Missing None (str "2024-03-01 10:00:00").

(** The game object before any story is created. *)
Definition fresh_game : @AdventureGame one_float :=
  mkGame None (JList []).

(** A story with one question and two endings. *)
Definition fork : Node :=
  mkNode (str "start") (str "left") (str "right") 5 (-3)
         (Some (new_node (str "l"))) (Some (new_node (str "r"))).

(** The lines that author [fork]. *)
Definition fork_lines : list pystr :=
  [str "start"; str "n"; str "left"; str "5"; str "l";
   str "right"; str "-3"; str "r"; str "y"; str "Y"].

(** A world whose score file holds an empty list and cannot be written. *)
Definition read_only (lines : list pystr) : World :=
  mkWorld lines [] (Content (str "[]")) (Some (str "Permission denied"))
          (str "2024-03-01 10:00:00").

(** The script that authors [fork] after its starting scenario. *)
Definition fork_script : list pystr := tl fork_lines.

(** A game object holding [fork] and no scores. *)
Definition fork_game : @AdventureGame one_float :=
  mkGame (Some fork) (JList []).

(** A record as a finished play writes it. *)
Definition one_score : json (F := one_float) :=
  score_entry (str "Ann") 5 (str "2024-03-01 10:00:00").


(** * Properties *)

Section Properties.
Context {F : PyFloat}.

(** ** Running a computation step by step *)

Lemma bind_ret_inv {X A B} (m : M X A) (k : A -> M X B) s b s' :
  bind m k s = (Ret b, s') ->
  exists a s1, m s = (Ret a, s1) /\ k a s1 = (Ret b, s').
Proof.
  unfold bind. destruct (m s) as [[a | e |] s1]; intros H; try discriminate.
  exists a, s1. split; [reflexivity | exact H].
Qed.

Lemma bind_run {X A B} (m : M X A) (k : A -> M X B) s a s1 :
  m s = (Ret a, s1) -> bind m k s = k a s1.
Proof. unfold bind. intros ->. reflexivity. Qed.

Lemma input_ret_inv {X} prompt (s : X * World) line s' :
  input prompt s = (Ret line, s') ->
  exists rest, stdin (snd s) = line :: rest /\
    s' = (fst s, set_stdin rest (emit (Asked prompt) (snd s))).
Proof.
  unfold input. destruct s as [x w]. simpl.
  destruct (stdin w) as [| l rest]; intros H; inversion H; subst.
  exists rest. split; reflexivity.
Qed.

Lemma to_int_ret_inv {X} line (s : X * World) z s' :
  to_int line s = (Ret z, s') -> int line = Some z /\ s' = s.
Proof.
  unfold to_int. destruct (int line); intros H; inversion H; subst.
  split; reflexivity.
Qed.

(** The input left never grows. *)
Definition consumes {X A} (m : M X A) : Prop :=
  forall s, length (stdin (snd (snd (m s)))) <= length (stdin (snd s)).

Lemma consumes_bind {X A B} (m : M X A) (k : A -> M X B) :
  consumes m -> (forall a, consumes (k a)) -> consumes (bind m k).
Proof.
  intros Hm Hk s. unfold bind. specialize (Hm s).
  destruct (m s) as [[a | e |] s1]; try exact Hm.
  specialize (Hk a s1). cbn [fst snd] in *. lia.
Qed.

Lemma consumes_print {X} line : consumes (@print X line).
Proof. intros s. simpl. lia. Qed.

Lemma consumes_input {X} prompt : consumes (@input X prompt).
Proof.
  intros [x w]. unfold input. cbn [fst snd].
  change (stdin (emit (Asked prompt) w)) with (stdin w).
  destruct (stdin w) eqn:E; cbn; rewrite ?E; cbn; lia.
Qed.

Lemma consumes_modify {X} f : consumes (@modify X f).
Proof. intros s. simpl. lia. Qed.

Lemma consumes_ret {X A} (a : A) : consumes (@ret X A a).
Proof. intros s. simpl. lia. Qed.

Lemma consumes_raise {X A} e : consumes (@raise X A e).
Proof. intros s. simpl. lia. Qed.

Lemma consumes_self {X} : consumes (@self X).
Proof. intros s. simpl. lia. Qed.

Lemma consumes_world {X} : consumes (@world X).
Proof. intros s. simpl. lia. Qed.

Lemma consumes_to_int {X} line : consumes (@to_int X line).
Proof. unfold to_int. destruct (int line); intros s; simpl; lia. Qed.


(** Runs the steps of a computation whose state is explicit. *)
Tactic Notation "run_io" :=
  cbv beta iota zeta delta
    [bind self world print input modify ret raise fst snd stdin stdout
     score_file write_error now emit set_stdout set_stdin set_score_file].
Tactic Notation "run_io" "in" hyp(H) :=
  cbv beta iota zeta delta
    [bind self world print input modify ret raise fst snd stdin stdout
     score_file write_error now emit set_stdout set_stdin set_score_file]
    in H.


(** ** Authoring runs to an end

    [settles b b' m]: started with fewer than [b] lines of input left,
    [m] does not run out of fuel, and when it returns fewer than [b']
    lines are left. *)
Definition settles {X A} (b b' : nat) (m : M X A) : Prop :=
  forall s, length (stdin (snd s)) < b ->
    match m s with
    | (Ret _, s') => length (stdin (snd s')) < b'
    | (Exc _, _) => True
    | (Fuel, _) => False
    end.

Lemma settles_bind {X A B} b b1 b2 (m : M X A) (k : A -> M X B) :
  settles b b1 m -> (forall a, settles b1 b2 (k a)) -> settles b b2 (bind m k).
Proof.
  intros Hm Hk s Hs. unfold bind. specialize (Hm s Hs).
  destruct (m s) as [[a | e |] s1]; auto.
  apply Hk. exact Hm.
Qed.

Lemma settles_print {X} b line : settles b b (@print X line).
Proof. intros s Hs. exact Hs. Qed.

Lemma settles_modify {X} b f : settles b b (@modify X f).
Proof. intros s Hs. exact Hs. Qed.

Lemma settles_self {X} b : settles b b (@self X).
Proof. intros s Hs. exact Hs. Qed.

Lemma settles_world {X} b : settles b b (@world X).
Proof. intros s Hs. exact Hs. Qed.

Lemma settles_ret {X A} b (a : A) : settles b b (@ret X A a).
Proof. intros s Hs. exact Hs. Qed.

Lemma settles_raise {X A} b b' e : settles b b' (@raise X A e).
Proof. intros s Hs. exact I. Qed.

Lemma settles_to_int {X} b line : settles b b (@to_int X line).
Proof. unfold to_int. destruct (int line); intros s Hs; [exact Hs | exact I]. Qed.

Lemma settles_input_strict {X} b prompt : settles (S b) b (@input X prompt).
Proof.
  intros [x w] Hs. unfold input. cbn [fst snd] in *.
  change (stdin (emit (Asked prompt) w)) with (stdin w).
  destruct (stdin w) eqn:E; cbn in *; [exact I | lia].
Qed.

Lemma settles_input {X} b prompt : settles b b (@input X prompt).
Proof.
  intros [x w] Hs. unfold input. cbn [fst snd] in *.
  change (stdin (emit (Asked prompt) w)) with (stdin w).
  destruct (stdin w) eqn:E; cbn in *; [exact I | lia].
Qed.

Lemma settles_weaken {X A} b b1 b2 (m : M X A) :
  settles b b1 m -> b1 <= b2 -> settles b b2 m.
Proof.
  intros Hm Hle s Hs. specialize (Hm s Hs).
  destruct (m s) as [[a | e |] s1]; auto. lia.
Qed.

Lemma settles_at_option1 b (f : M Node unit) :
  settles b b f -> settles b b (at_option1 f).
Proof.
  intros Hf [n w] Hs. unfold at_option1. cbn [fst snd] in *.
  destruct (option1 n) as [c |]; [| exact Hs].
  specialize (Hf (c, w) Hs). destruct (f (c, w)) as [[[] | e |] [c' w']]; auto.
Qed.

Lemma settles_at_option2 b (f : M Node unit) :
  settles b b f -> settles b b (at_option2 f).
Proof.
  intros Hf [n w] Hs. unfold at_option2. cbn [fst snd] in *.
  destruct (option2 n) as [c |]; [| exact Hs].
  specialize (Hf (c, w) Hs). destruct (f (c, w)) as [[[] | e |] [c' w']]; auto.
Qed.

Lemma create_node_settles fuel : settles fuel (pred fuel) (_create_node fuel).
Proof.
  induction fuel as [| fuel IH].
  - intros s Hs. inversion Hs.
  - cbn [pred]. cbn [_create_node].
    assert (IH' : settles fuel fuel (_create_node fuel)).
    { apply settles_weaken with (1 := IH). lia. }
    eapply settles_bind; [apply settles_self | intros current_node].
    eapply settles_bind; [apply settles_print | intros _].
    eapply settles_bind; [apply settles_print | intros _].
    eapply settles_bind; [apply settles_print | intros _].
    eapply settles_bind; [apply settles_input_strict | intros answer].
    destruct (str_eqb (lower answer) (str "y")); [apply settles_ret |].
    repeat (eapply settles_bind;
            [ first [ apply settles_print | apply settles_modify
                    | apply settles_to_int | apply settles_input
                    | apply settles_at_option1; exact IH' ] | intros ]).
    apply settles_at_option2; exact IH'.
Qed.


Lemma print_ret_inv {X} line (s : X * World) a s' :
  print line s = (Ret a, s') -> s' = (fst s, emit (Printed line) (snd s)).
Proof. unfold print. intros H. inversion H. reflexivity. Qed.

Lemma modify_ret_inv {X} (f : X -> X) (s : X * World) a s' :
  modify f s = (Ret a, s') -> s' = (f (fst s), snd s).
Proof. unfold modify. intros H. inversion H. reflexivity. Qed.

Lemma self_ret_inv {X} (s : X * World) a s' :
  self s = (Ret a, s') -> a = fst s /\ s' = s.
Proof. unfold self. intros H. inversion H. split; reflexivity. Qed.

Lemma at_option1_ret_inv (f : M Node unit) n w c a s' :
  at_option1 f (n, w) = (Ret a, s') ->
  option1 n = Some c ->
  exists c' w', f (c, w) = (Ret tt, (c', w')) /\
    s' = (set_option1 (Some c') n, w').
Proof.
  unfold at_option1. cbn [fst snd]. intros H Hc. rewrite Hc in H.
  destruct (f (c, w)) as [r [c' w']] eqn:E. cbn [fst snd] in H.
  inversion H; subst. exists c', w'. destruct a. split; reflexivity.
Qed.

Lemma at_option2_ret_inv (f : M Node unit) n w c a s' :
  at_option2 f (n, w) = (Ret a, s') ->
  option2 n = Some c ->
  exists c' w', f (c, w) = (Ret tt, (c', w')) /\
    s' = (set_option2 (Some c') n, w').
Proof.
  unfold at_option2. cbn [fst snd]. intros H Hc. rewrite Hc in H.
  destruct (f (c, w)) as [r [c' w']] eqn:E. cbn [fst snd] in H.
  inversion H; subst. exists c', w'. destruct a. split; reflexivity.
Qed.

(** Takes the first step off a run that returned. *)
Ltac step_ret H :=
  let a := fresh "a" in
  let s1 := fresh "s" in
  let H1 := fresh "Hstep" in
  apply bind_ret_inv in H; destruct H as (a & s1 & H1 & H);
  first
    [ apply print_ret_inv in H1; cbn [fst snd] in H1; subst s1
    | apply modify_ret_inv in H1; cbn [fst snd] in H1; subst s1
    | apply self_ret_inv in H1; cbn [fst snd] in H1;
      destruct H1 as [? ?]; subst a s1
    | apply to_int_ret_inv in H1; destruct H1 as [? ?]; subst s1
    | apply input_ret_inv in H1; cbn [fst snd] in H1;
      destruct H1 as (? & ? & ?); subst s1
    | idtac ].

Lemma create_node_both_or_neither fuel : forall n w n' w',
  _create_node fuel (n, w) = (Ret tt, (n', w')) ->
  both_or_neither n = true ->
  both_or_neither n' = true.
Proof.
  induction fuel as [| fuel IH]; intros n w n' w' Hrun Hn.
  - discriminate Hrun.
  - cbn [_create_node] in Hrun.
    do 5 step_ret Hrun.
    destruct (str_eqb (lower _) (str "y")) in Hrun.
    + inversion Hrun; subst. exact Hn.
    + do 28 step_ret Hrun.
      step_ret Hrun.
      eapply at_option1_ret_inv in Hstep; [| reflexivity].
      destruct Hstep as (c1 & w1 & Hc1 & ->).
      do 4 step_ret Hrun.
      eapply at_option2_ret_inv in Hrun; [| reflexivity].
      destruct Hrun as (c2 & w2 & Hc2 & Heq).
      inversion Heq; subst. cbn.
      apply IH in Hc1; [| reflexivity]. apply IH in Hc2; [| reflexivity].
      rewrite Hc1, Hc2. reflexivity.
Qed.


Lemma create_game_settles : forall s, fst (create_game s) <> Fuel.
Proof.
  assert (H : forall b, settles b b create_game).
  { intros b. unfold create_game.
    repeat (eapply settles_bind;
            [ first [ apply settles_print | apply settles_modify
                    | apply settles_input ] | intros ]).
    eapply settles_bind; [| intros; apply settles_print ].
    intros [g w] Hs. unfold at_root. cbn [fst snd] in *.
    destruct (root g) as [r |]; [| exact Hs].
    unfold with_fuel. cbn [fst snd].
    pose proof (@create_node_settles (S (length (stdin w))) (r, w)) as Hc.
    cbn [fst snd pred] in Hc. specialize (Hc (Nat.lt_succ_diag_r _)).
    destruct (_create_node (S (length (stdin w))) (r, w)) as [[[] | e |] [r' w']];
      cbn [fst snd] in *; auto; lia. }
  intros s. specialize (H (S (length (stdin (snd s)))) s (Nat.lt_succ_diag_r _)).
  destruct (create_game s) as [[a | e |] s']; cbn; [discriminate | discriminate | exact (False_ind _ H)].
Qed.

(** C2 (amended): in the tree of an authoring session that ran to its
    end, every node has both children or neither. *)
Theorem created_tree_both_or_neither (g : AdventureGame) (w : World) g' w' :
  create_game (g, w) = (Ret tt, (g', w')) ->
  exists r, root g' = Some r /\ both_or_neither r = true.
Proof.
  unfold create_game. intros Hrun.
  do 4 step_ret Hrun. step_ret Hrun.
  apply print_ret_inv in Hrun. cbn [fst snd] in Hrun.
  unfold at_root in Hstep. cbn [fst snd root set_root] in Hstep.
  unfold with_fuel in Hstep. cbn [fst snd] in Hstep.
  match type of Hstep with
  | (let (_, _) := ?run in _) = _ => destruct run as [o [r' w1]] eqn:Hnode
  end.
  cbn [fst snd] in Hstep. inversion Hstep; subst.
  inversion Hrun; subst. cbn [root set_root].
  exists r'. split; [reflexivity |].
  match type of Hnode with _ = (Ret ?u, _) => destruct u end.
  eapply create_node_both_or_neither; [exact Hnode | reflexivity].
Qed.


Lemma lower_is_y answer :
  str_eqb (lower answer) (str "y") = true <->
  answer = str "y" \/ answer = str "Y".
Proof.
  split.
  - destruct answer as [| c [| d rest]]; cbn; try discriminate.
    + intros H. apply andb_prop in H. destruct H as [H _].
      apply N.eqb_eq in H. unfold lower_cp, in_range in H.
      destruct (N.leb_spec 65 c), (N.leb_spec c 90), (N.leb_spec 192 c),
        (N.leb_spec c 222), (N.eqb_spec c 215); cbn in H;
        first [ left; f_equal; lia | right; f_equal; lia | exfalso; lia ].
    + intros H. apply andb_prop in H. destruct H as [_ H]. discriminate H.
  - intros [-> | ->]; reflexivity.
Qed.

(** The node a computation works on keeps its text. *)
Definition keeps_text {A} (m : M Node A) : Prop :=
  forall s, story_text (fst (snd (m s))) = story_text (fst s).

Lemma keeps_text_bind {A B} (m : M Node A) (k : A -> M Node B) :
  keeps_text m -> (forall a, keeps_text (k a)) -> keeps_text (bind m k).
Proof.
  intros Hm Hk s. unfold bind. specialize (Hm s).
  destruct (m s) as [[a | e |] s1]; try exact Hm.
  rewrite (Hk a s1). exact Hm.
Qed.

Lemma keeps_text_at_option1 f : keeps_text (at_option1 f).
Proof.
  intros [n w]. unfold at_option1. cbn [fst snd].
  destruct (option1 n) as [c |]; [| reflexivity].
  destruct (f (c, w)) as [r [c' w']]. reflexivity.
Qed.

Lemma keeps_text_at_option2 f : keeps_text (at_option2 f).
Proof.
  intros [n w]. unfold at_option2. cbn [fst snd].
  destruct (option2 n) as [c |]; [| reflexivity].
  destruct (f (c, w)) as [r [c' w']]. reflexivity.
Qed.

Lemma keeps_text_input prompt : keeps_text (input prompt).
Proof.
  intros [n w]. unfold input. cbn [fst snd].
  destruct (stdin (emit (Asked prompt) w)); reflexivity.
Qed.

Lemma keeps_text_to_int line : keeps_text (to_int line).
Proof. intros s. unfold to_int. destruct (int line); reflexivity. Qed.

Lemma create_node_keeps_text fuel : keeps_text (_create_node fuel).
Proof.
  destruct fuel as [| fuel]; [intros s; reflexivity |].
  cbn [_create_node].
  apply keeps_text_bind; [intros s; reflexivity | intros current_node].
  do 3 (apply keeps_text_bind; [intros s; reflexivity | intros _]).
  apply keeps_text_bind; [apply keeps_text_input | intros answer].
  destruct (str_eqb (lower answer) (str "y")); [intros s; reflexivity |].
  repeat (apply keeps_text_bind;
          [ first [ apply keeps_text_input | apply keeps_text_to_int
                  | apply keeps_text_at_option1
                  | intros s; reflexivity ] | intros ]).
  apply keeps_text_at_option2.
Qed.




(** ** Play *)

Lemma str_eqb_eq a : forall b, str_eqb a b = true <-> a = b.
Proof.
  induction a as [| x a IH]; intros [| y b]; cbn; split; intros H;
    try reflexivity; try discriminate.
  - apply andb_prop in H. destruct H as [Hx Hab].
    apply N.eqb_eq in Hx. apply IH in Hab. subst. reflexivity.
  - inversion H; subst. rewrite N.eqb_refl. cbn. apply IH. reflexivity.
Qed.

Lemma str_eqb_neq a b : a <> b -> str_eqb a b = false.
Proof.
  intros H. destruct (str_eqb a b) eqn:E; [| reflexivity].
  apply str_eqb_eq in E. contradiction.
Qed.

Lemma print_journey_run {X} steps : forall i (x : X) w,
  print_journey i steps (x, w) =
  (Ret tt, (x, set_stdout (stdout w ++ journey_events i steps) w)).
Proof.
  induction steps as [| c steps IH]; intros i x w.
  - cbn. unfold ret. rewrite app_nil_r. destruct w; reflexivity.
  - cbn [print_journey journey_events]. run_io. rewrite IH. run_io.
    rewrite <- !app_assoc. reflexivity.
Qed.

(** Lines that are not a valid choice send the loop back to the same
    turn. *)
Lemma play_loop_invalid {X} (x : X) n t c bad : forall fuel w rest,
  is_ending n = false ->
  Forall (fun line => line <> str "1" /\ line <> str "2") bad ->
  stdin w = bad ++ rest ->
  play_loop (length bad + fuel) n t c (x, w) =
  play_loop fuel n t c
    (x, set_stdin rest
          (set_stdout (stdout w ++ flat_map (fun _ => invalid_events n) bad) w)).
Proof.
  induction bad as [| line bad IH]; intros fuel w rest Hn Hbad Hin.
  - cbn. rewrite app_nil_r. destruct w; cbn in *. subst. reflexivity.
  - inversion Hbad as [| ? ? [H1 H2] Hbad']; subst.
    destruct w as [ins out file werr clock]. cbn [stdin app] in Hin. subst ins.
    cbn [length Nat.add play_loop]. rewrite Hn. run_io.
    rewrite (str_eqb_neq H1), (str_eqb_neq H2). run_io.
    erewrite (IH fuel _ rest Hn Hbad'); [| reflexivity]. run_io.
    unfold invalid_events, options_events, scene_events.
    cbn [flat_map]. rewrite <- !app_assoc. reflexivity.
Qed.


(** C7: during play, at a node that offers choices, any number of lines
    other than "1" and "2" leaves the loop at the same turn, with the
    same node, total score and history; each is answered by the
    invalid-choice message and the options are asked again. *)
Theorem invalid_choices_retried {X} (x : X) (n : Node) (total_score : Z)
    (choices_made : list Step) (w : World) (bad rest : list pystr) :
  is_ending n = false ->
  Forall (fun line => line <> str "1" /\ line <> str "2") bad ->
  stdin w = bad ++ rest ->
  with_fuel (fun fuel => play_loop fuel n total_score choices_made) (x, w) =
  with_fuel (fun fuel => play_loop fuel n total_score choices_made)
    (x, set_stdin rest
          (set_stdout (stdout w ++ flat_map (fun _ => invalid_events n) bad) w)).
Proof.
  intros Hn Hbad Hin. unfold with_fuel. cbn [fst snd stdin set_stdin].
  rewrite Hin, length_app.
  change (S (length bad + length rest)) with (S (length bad) + length rest).
  replace (S (length bad) + length rest) with (length bad + S (length rest)) by lia.
  apply play_loop_invalid; assumption.
Qed.

Lemma sum_Z_from l : forall a, fold_left Z.add l a = (a + sum_Z l)%Z.
Proof.
  unfold sum_Z. induction l as [| z l IH]; intros a; cbn.
  - lia.
  - rewrite IH, (IH z). lia.
Qed.

Lemma sum_Z_cons z l : sum_Z (z :: l) = (z + sum_Z l)%Z.
Proof. unfold sum_Z. cbn. apply sum_Z_from. Qed.

Lemma taken_not_ending p n c : taken p n = Some c -> is_ending n = false.
Proof.
  unfold is_ending. destruct p; cbn; intros ->; [| destruct (option1 n)]; reflexivity.
Qed.

(** Valid choices down to an ending: the loop returns the sum of the
    deltas and the steps of the path. *)
Lemma play_loop_path {X} (x : X) path : forall n leaf t c fuel w rest,
  follow n path = Some leaf -> is_ending leaf = true ->
  length path < fuel ->
  stdin w = map pick_line path ++ rest ->
  play_loop fuel n t c (x, w) =
  (Ret ((t + sum_Z (path_deltas n path))%Z, c ++ path_steps n path),
   (x, set_stdin rest (set_stdout (stdout w ++ play_events n path) w))).
Proof.
  induction path as [| p path IH]; intros n leaf t c fuel w rest Hf Hleaf Hfuel Hin;
    destruct fuel as [| fuel]; try (cbn in Hfuel; lia);
    destruct w as [ins out file werr clock]; cbn [stdin map app] in Hin; subst ins.
  - change (Some n = Some leaf) in Hf. assert (leaf = n) by congruence. subst leaf. clear Hf.
    cbn [play_loop]. rewrite Hleaf. run_io.
    cbn [path_deltas path_steps play_events]. unfold sum_Z, scene_events. cbn [fold_left].
    rewrite Z.add_0_r, app_nil_r, <- !app_assoc. reflexivity.
  - cbn [follow] in Hf. destruct (taken p n) as [next |] eqn:Ht; [| discriminate].
    cbn [play_loop]. rewrite (taken_not_ending _ _ Ht). run_io.
    cbn [path_deltas path_steps play_events]. rewrite Ht, sum_Z_cons.
    destruct p; cbn [pick_line taken delta label] in *.
    + change (str_eqb (str "1") (str "1")) with true. cbv iota. rewrite Ht.
      erewrite IH; [| exact Hf | exact Hleaf | cbn in Hfuel; lia | reflexivity].
      run_io. unfold options_events, scene_events.
      rewrite <- !app_assoc, Z.add_assoc. reflexivity.
    + change (str_eqb (str "2") (str "1")) with false.
      change (str_eqb (str "2") (str "2")) with true. cbv iota. rewrite Ht.
      erewrite IH; [| exact Hf | exact Hleaf | cbn in Hfuel; lia | reflexivity].
      run_io. unfold options_events, scene_events.
      rewrite <- !app_assoc, Z.add_assoc. reflexivity.
Qed.

(** A play from the name to the saving of the record. *)
Lemma play_game_path (g : AdventureGame) (w : World) r scores name path rest leaf :
  root g = Some r -> high_scores g = JList scores ->
  is_nil (strip name) = false ->
  stdin w = name :: map pick_line path ++ rest ->
  follow r path = Some leaf -> is_ending leaf = true ->
  play_game (g, w) =
  save_high_scores
    (set_high_scores
       (JList (scores ++ [score_entry name (sum_Z (path_deltas r path)) (now w)])) g,
     set_stdin rest (set_stdout (stdout w ++ game_events name r path) w)).
Proof.
  intros Hroot Hscores Hname Hin Hf Hleaf.
  destruct w as [ins out file werr clock]. cbn [stdin] in Hin. subst ins.
  unfold play_game. run_io. rewrite Hroot. run_io.
  unfold with_fuel at 1. cbn [ask_name]. rewrite Hname. run_io.
  unfold with_fuel at 1. run_io.
  erewrite play_loop_path;
    [| exact Hf | exact Hleaf | rewrite length_app, length_map; lia | reflexivity].
  run_io. rewrite print_journey_run. run_io.
  unfold append_score. run_io. rewrite Hscores. run_io.
  unfold game_events. cbn [app]. rewrite Z.add_0_l, <- !app_assoc. reflexivity.
Qed.





(** ** The list of high scores *)

(** C10: with an empty list in memory, [show_high_scores] only reports
    that no scores are recorded: the list, the story and the score file
    are left as they were. *)
Theorem show_empty_list (g : AdventureGame) (w : World) :
  high_scores g = JList [] ->
  show_high_scores (g, w) =
  (Ret tt, (g, emit (Printed (nl ++ str "No scores recorded yet!")) w)) /\
  score_file (snd (snd (show_high_scores (g, w)))) = score_file w.
Proof.
  intros Hempty.
  assert (Hrun : show_high_scores (g, w) =
                 (Ret tt, (g, emit (Printed (nl ++ str "No scores recorded yet!")) w))).
  { unfold show_high_scores. run_io. rewrite Hempty. reflexivity. }
  split; [exact Hrun | rewrite Hrun; reflexivity].
Qed.

Lemma str_ltb_irrefl a : str_ltb a a = false.
Proof.
  induction a as [| x a IH]; cbn; [reflexivity |].
  rewrite N.ltb_irrefl, N.eqb_refl. exact IH.
Qed.

Lemma str_ltb_trans a : forall b c,
  str_ltb a b = true -> str_ltb b c = true -> str_ltb a c = true.
Proof.
  induction a as [| x a IH]; intros [| y b] [| z c]; cbn; try discriminate;
    try reflexivity.
  destruct (N.ltb_spec x y), (N.eqb_spec x y), (N.ltb_spec y z), (N.eqb_spec y z),
    (N.ltb_spec x z), (N.eqb_spec x z); subst; try discriminate; try lia;
    try reflexivity; intros; eauto.
Qed.

Lemma str_ltb_asym a b : str_ltb a b = true -> str_ltb b a = false.
Proof.
  intros H. destruct (str_ltb b a) eqn:E; [| reflexivity].
  pose proof (str_ltb_trans _ _ _ H E) as C.
  rewrite str_ltb_irrefl in C. discriminate.
Qed.


(** *** Sorting well-formed records *)

Lemma key_lt_plain x y a b :
  plain x a -> plain y b ->
  exists r, key_lt (fst x) (fst y) = Some r /\ (r = true <-> plain_lt a b).
Proof.
  unfold plain, plain_lt. destruct a as [z s], b as [z' s']. cbn [fst snd].
  intros -> ->. unfold key_lt. cbn [fst snd py_eq py_lt as_number num_eqb num_ltb].
  destruct (Z.eqb_spec z z') as [-> | Hz]; cbn [negb].
  - destruct (str_eqb s s') eqn:Es; cbn [negb].
    + apply str_eqb_eq in Es. subst s'. exists false. split; [reflexivity |].
      rewrite str_ltb_irrefl. split; [discriminate | intros [H | [_ H]]; [lia | discriminate]].
    + exists (str_ltb s s'). split; [reflexivity |].
      split; [intros H; right; split; [reflexivity | exact H] | intros [H | [_ H]]; [lia | exact H]].
  - exists (Z.ltb z z'). split; [reflexivity |].
    rewrite Z.ltb_lt. split; [intros H; left; exact H | intros [H | [H _]]; [exact H | contradiction]].
Qed.

Lemma plain_lt_trans a b c : plain_lt a b -> plain_lt b c -> plain_lt a c.
Proof.
  unfold plain_lt. intros [H | [H1 H2]] [K | [K1 K2]].
  - left. lia.
  - left. lia.
  - left. lia.
  - right. split; [congruence | eapply str_ltb_trans; eassumption].
Qed.

Lemma plain_lt_asym a b : plain_lt a b -> ~ plain_lt b a.
Proof.
  unfold plain_lt. intros [H | [H1 H2]] [K | [K1 K2]]; try lia.
  apply str_ltb_asym in H2. congruence.
Qed.

Lemma insert_key_sorted x : forall l,
  (exists k, plain x k) -> all_plain l -> StronglySorted not_above l ->
  exists l', insert_key x l = Some l' /\ Permutation (x :: l) l' /\
             StronglySorted not_above l'.
Proof.
  intros l [kx Hx]. induction l as [| y l IH]; intros Hl Hs.
  - exists [x]. split; [reflexivity |]. split; [reflexivity |].
    constructor; constructor.
  - inversion Hl as [| ? ? [ky Hy] Hl']; subst.
    inversion Hs as [| ? ? Hs' Hy_le]; subst.
    cbn [insert_key].
    destruct (key_lt_plain Hx Hy) as (r & Hr & Hiff). rewrite Hr.
    destruct r.
    + exists (x :: y :: l). split; [reflexivity |]. split; [reflexivity |].
      assert (Hxy : plain_lt kx ky) by (apply Hiff; reflexivity).
      constructor; [exact Hs |]. constructor.
      * unfold not_above. destruct (key_lt_plain Hy Hx) as (r & Hr' & Hiff').
        rewrite Hr'. destruct r; [| reflexivity].
        exfalso. apply (plain_lt_asym Hxy). apply Hiff'. reflexivity.
      * rewrite Forall_forall in *. intros z Hz.
        destruct (Hl' z Hz) as [kz Hkz]. specialize (Hy_le z Hz).
        unfold not_above in *.
        destruct (key_lt_plain Hkz Hx) as (r & Hr' & Hiff'). rewrite Hr'.
        destruct r; [| reflexivity]. exfalso.
        destruct (key_lt_plain Hkz Hy) as (r2 & Hr2 & Hiff2).
        rewrite Hr2 in Hy_le. injection Hy_le as ->.
        assert (plain_lt kz ky) by (eapply plain_lt_trans; [apply Hiff'; reflexivity | exact Hxy]).
        apply Hiff2 in H. discriminate.
    + destruct (IH Hl' Hs') as (l' & Hins & Hperm & Hsorted). rewrite Hins.
      exists (y :: l'). split; [reflexivity |]. split.
      * rewrite perm_swap. constructor. exact Hperm.
      * constructor; [exact Hsorted |].
        rewrite Forall_forall in *. intros z Hz.
        apply (Permutation_in _ (Permutation_sym Hperm)) in Hz.
        destruct Hz as [<- | Hz]; [exact Hr | apply Hy_le; exact Hz].
Qed.

Lemma sort_ascending_sorted l : forall done,
  all_plain l -> all_plain done -> StronglySorted not_above done ->
  exists out, sort_ascending l done = Some out /\ Permutation (l ++ done) out /\
              StronglySorted not_above out.
Proof.
  induction l as [| x l IH]; intros done Hl Hd Hs.
  - exists done. repeat split; [reflexivity | exact Hs].
  - inversion Hl as [| ? ? Hx Hl']; subst. cbn [sort_ascending].
    destruct (insert_key_sorted Hx Hd Hs) as (d' & Hins & Hperm & Hsorted).
    rewrite Hins.
    assert (Hd' : all_plain d').
    { unfold all_plain. rewrite Forall_forall. intros z Hz.
      apply (Permutation_in _ (Permutation_sym Hperm)) in Hz.
      destruct Hz as [<- | Hz]; [exact Hx |].
      unfold all_plain in Hd. rewrite Forall_forall in Hd. apply Hd. exact Hz. }
    destruct (IH d' Hl' Hd' Hsorted) as (out & Hout & Hperm' & Hsorted').
    exists out. split; [exact Hout |]. split; [| exact Hsorted'].
    rewrite <- Hperm'. cbn. rewrite <- Hperm. apply Permutation_middle.
Qed.


Lemma sorted_app {A} (R : A -> A -> Prop) l1 l2 :
  StronglySorted R l1 -> StronglySorted R l2 ->
  (forall x y, In x l1 -> In y l2 -> R x y) ->
  StronglySorted R (l1 ++ l2).
Proof.
  induction 1 as [| x l Hs IH Hx]; intros H2 Hcross; cbn; [exact H2 |].
  constructor.
  - apply IH; [exact H2 |]. intros a b Ha Hb. apply Hcross; [right; exact Ha | exact Hb].
  - apply Forall_app. split; [exact Hx |].
    rewrite Forall_forall. intros b Hb. apply Hcross; [left; reflexivity | exact Hb].
Qed.

Lemma sorted_rev {A} (R : A -> A -> Prop) l :
  StronglySorted R l -> StronglySorted (fun a b => R b a) (rev l).
Proof.
  induction 1 as [| x l Hs IH Hx]; cbn; [constructor |].
  apply sorted_app; [exact IH | constructor; constructor |].
  intros a b Ha [<- | []]. rewrite Forall_forall in Hx.
  apply Hx. apply in_rev. exact Ha.
Qed.

Lemma sorted_map_weaken {A B} (R : A -> A -> Prop) (R' : B -> B -> Prop)
    (f : A -> B) l :
  StronglySorted R l ->
  (forall x y, In x l -> In y l -> R x y -> R' (f x) (f y)) ->
  StronglySorted R' (map f l).
Proof.
  induction 1 as [| x l Hs IH Hx]; intros Hw; cbn; constructor.
  - apply IH. intros a b Ha Hb. apply Hw; right; assumption.
  - rewrite Forall_forall in *. intros b Hb. apply in_map_iff in Hb.
    destruct Hb as (a & <- & Ha). apply Hw; [left; reflexivity | right; exact Ha |].
    apply Hx. exact Ha.
Qed.

(** The key of a well-formed record is made of its score and its date. *)
Lemma sort_key_well_formed x :
  well_formed x ->
  exists z s, score_of x = Some z /\ date_of x = Some s /\
              sort_key x = Some (JInt z, JStr s).
Proof.
  intros [[z Hz] [s Hs]]. exists z, s. split; [exact Hz |]. split; [exact Hs |].
  unfold score_of, date_of, sort_key in *.
  destruct x as [| | | | | | d]; try discriminate.
  destruct (dict_get (str "score") d) as [[| | z' | | | |] |]; try discriminate.
  injection Hz as ->.
  destruct (dict_get (str "date") d) as [[| | | | s' | |] |]; try discriminate;
    injection Hs as ->; reflexivity.
Qed.

Lemma decorate_well_formed l :
  Forall well_formed l ->
  exists d, decorate l = Some d /\ map snd d = l /\ all_plain d /\ Forall keyed d.
Proof.
  induction 1 as [| x l Hx Hl IH].
  - exists []. repeat split; constructor.
  - destruct IH as (d & Hd & Hmap & Hplain & Hkeyed).
    destruct (sort_key_well_formed Hx) as (z & s & Hz & Hs & Hk).
    exists ((JInt z, JStr s, x) :: d). cbn [decorate]. rewrite Hk, Hd.
    split; [reflexivity |]. split; [cbn; f_equal; exact Hmap |].
    split; constructor; try assumption.
    exists (z, s). reflexivity.
Qed.

Lemma not_above_shown x y :
  (exists k, plain x k) -> (exists k, plain y k) -> keyed x -> keyed y ->
  not_above x y -> shown_before (snd y) (snd x).
Proof.
  intros [[a s] Hx] [[b t] Hy] Kx Ky Hle.
  unfold plain, keyed in *. cbn [fst snd] in *.
  rewrite Hx in Kx. rewrite Hy in Ky.
  assert (Hsx : score_of (snd x) = Some a /\ date_of (snd x) = Some s).
  { unfold sort_key, score_of, date_of in *.
    destruct (snd x) as [| | | | | | d]; try discriminate.
    destruct (dict_get (str "score") d) as [v |]; [| discriminate].
    injection Kx as -> Hd. split; [reflexivity |].
    destruct (dict_get (str "date") d) as [v |]; [subst v | injection Hd as <-]; reflexivity. }
  assert (Hsy : score_of (snd y) = Some b /\ date_of (snd y) = Some t).
  { unfold sort_key, score_of, date_of in *.
    destruct (snd y) as [| | | | | | d]; try discriminate.
    destruct (dict_get (str "score") d) as [v |]; [| discriminate].
    injection Ky as -> Hd. split; [reflexivity |].
    destruct (dict_get (str "date") d) as [v |]; [subst v | injection Hd as <-]; reflexivity. }
  destruct Hsx as [Hxa Hxs], Hsy as [Hyb Hyt].
  exists b, t, a, s. repeat split; try assumption.
  unfold not_above in Hle.
  destruct (key_lt_plain (a := (b, t)) (b := (a, s)) Hy Hx) as (r & Hr & Hiff).
  rewrite Hr in Hle. injection Hle as ->.
  unfold plain_lt in Hiff. cbn [fst snd] in Hiff.
  destruct (Z.lt_trichotomy a b) as [Hlt | [Heq | Hgt]].
  - left. exact Hlt.
  - right. split; [auto |]. destruct (str_ltb t s) eqn:E; [| reflexivity].
    assert (false = true) by (apply Hiff; right; split; [symmetry; exact Heq | reflexivity]).
    discriminate.
  - assert (false = true) by (apply Hiff; left; lia). discriminate.
Qed.


(** C6: the table lists the records of a normalized list (an [int]
    score, a [str] date or none) by descending score and, for equal
    scores, by descending date string; so of records with scores 10, 30
    and 30 the two with 30 come first, the one with the later date
    string at the top. *)
Theorem scores_shown_in_order :
  (forall valid_scores : list json,
     Forall well_formed valid_scores ->
     exists sorted,
       sorted_scores valid_scores = Some sorted /\
       Permutation valid_scores sorted /\
       StronglySorted shown_before sorted) /\
  (forall n1 n2 n3 d1 d2 d3 : pystr,
     str_ltb d3 d2 = true ->
     sorted_scores [score_entry n1 10 d1; score_entry n2 30 d2;
                    score_entry n3 30 d3] =
     Some [score_entry n2 30 d2; score_entry n3 30 d3; score_entry n1 10 d1]).
Proof.
  split.
  - intros l Hl.
    destruct (decorate_well_formed Hl) as (d & Hd & Hmap & Hplain & Hkeyed).
    assert (Hrev : all_plain (rev d)).
    { unfold all_plain in *. rewrite Forall_forall in *. intros x Hx.
      apply Hplain. apply in_rev. exact Hx. }
    destruct (sort_ascending_sorted (l := rev d) (done := []) Hrev) as (out & Hout & Hperm & Hsorted);
      [constructor | constructor |].
    rewrite app_nil_r in Hperm.
    exists (rev (map snd out)). unfold sorted_scores. rewrite Hd, Hout.
    split; [reflexivity |]. split.
    + rewrite <- Hmap. rewrite <- Permutation_rev. apply Permutation_map.
      rewrite <- Hperm. apply Permutation_rev.
    + rewrite <- map_rev. apply sorted_rev in Hsorted.
      eapply sorted_map_weaken; [exact Hsorted |].
      intros x y Hx Hy Hxy. cbv beta in Hxy.
      assert (Hin : forall z, In z (rev out) -> In z d).
      { intros z Hz. apply in_rev in Hz.
        apply (Permutation_in _ (Permutation_sym Hperm)) in Hz.
        apply in_rev. exact Hz. }
      unfold all_plain in Hplain. rewrite Forall_forall in Hplain, Hkeyed.
      apply not_above_shown; auto.
  - intros n1 n2 n3 d1 d2 d3 Hlt.
    unfold sorted_scores. cbn [decorate sort_key score_entry dict_get].
    change (str_eqb (str "score") (str "player_name")) with false.
    change (str_eqb (str "score") (str "score")) with true.
    change (str_eqb (str "date") (str "player_name")) with false.
    change (str_eqb (str "date") (str "score")) with false.
    change (str_eqb (str "date") (str "date")) with true.
    cbv iota. cbn [rev app sort_ascending insert_key fst snd].
    unfold key_lt.
    cbn [fst snd py_eq py_lt as_number num_eqb num_ltb Z.eqb Z.ltb negb
         Pos.eqb Z.compare Pos.compare Pos.compare_cont option_map].
    assert (Hne : str_eqb d3 d2 = false).
    { destruct (str_eqb d3 d2) eqn:E; [| reflexivity].
      apply str_eqb_eq in E. subst. rewrite str_ltb_irrefl in Hlt. discriminate. }
    assert (Hne' : str_eqb d2 d3 = false).
    { destruct (str_eqb d2 d3) eqn:E; [| reflexivity].
      apply str_eqb_eq in E. subst. rewrite str_ltb_irrefl in Hlt. discriminate. }
    rewrite ?Hne, ?Hne'. cbn [negb]. rewrite ?Hlt, ?(str_ltb_asym _ _ Hlt).
    cbn [insert_key fst snd option_map sort_ascending map rev app].
    unfold key_lt.
    cbn [fst snd py_eq py_lt as_number num_eqb num_ltb Z.eqb Z.ltb negb
         Pos.eqb Z.compare Pos.compare Pos.compare_cont option_map].
    rewrite ?Hne, ?Hne'. cbn [negb]. rewrite ?Hlt, ?(str_ltb_asym _ _ Hlt).
    cbn [insert_key fst snd option_map sort_ascending map rev app].
    reflexivity.
Qed.


(** ** Reading back what [json] wrote *)

(** *** Strings *)

Lemma hex_digit_value n : (n < 16)%N -> hex_value (hex_digit n) = Some n.
Proof.
  intros H. unfold hex_digit, hex_value, in_range.
  destruct (N.ltb_spec n 10).
  - replace (N.leb 48 (48 + n)) with true by (symmetry; apply N.leb_le; lia).
    replace (N.leb (48 + n) 57) with true by (symmetry; apply N.leb_le; lia).
    cbn [andb]. f_equal. lia.
  - replace (N.leb (87 + n) 57) with false by (symmetry; apply N.leb_gt; lia).
    rewrite andb_false_r.
    replace (N.leb 97 (87 + n)) with true by (symmetry; apply N.leb_le; lia).
    replace (N.leb (87 + n) 102) with true by (symmetry; apply N.leb_le; lia).
    cbn [andb]. f_equal. lia.
Qed.

Lemma nibble n k : N.land (N.shiftr n k) 15 = ((n / 2 ^ k) mod 16)%N.
Proof.
  rewrite N.shiftr_div_pow2. change 15%N with (N.ones 4).
  rewrite N.land_ones. reflexivity.
Qed.

Lemma hex4_u_escape n tail : (n < 65536)%N ->
  exists a b c d,
    u_escape n ++ tail = backslash :: 117%N :: a :: b :: c :: d :: tail /\
    hex4 a b c d = Some n.
Proof.
  intros H. unfold u_escape. do 4 eexists. split; [reflexivity |].
  unfold hex4. rewrite !nibble.
  replace (N.land n 15) with (n mod 16)%N
    by (change 15%N with (N.ones 4); rewrite N.land_ones; reflexivity).
  rewrite !hex_digit_value by (try apply N.mod_lt; lia).
  f_equal. change (2 ^ 12)%N with 4096%N. change (2 ^ 8)%N with 256%N.
  change (2 ^ 4)%N with 16%N.
  zify; Z.to_euclidean_division_equations; lia.
Qed.

Lemma lor_shiftl_low a b k :
  (b < 2 ^ k)%N -> N.lor (N.shiftl a k) b = (a * 2 ^ k + b)%N.
Proof.
  intros Hb.
  assert (Hland : N.land (N.shiftl a k) b = 0%N).
  { apply N.bits_inj. intros i. rewrite N.land_spec, N.bits_0.
    destruct (N.lt_ge_cases i k) as [Hlt | Hge].
    - rewrite N.shiftl_spec_low by exact Hlt. reflexivity.
    - destruct (N.eq_dec b 0) as [-> | Hnz]; [rewrite N.bits_0; apply andb_false_r |].
      rewrite (N.bits_above_log2 b i); [apply andb_false_r |].
      apply N.lt_le_trans with (m := k); [| exact Hge].
      apply N.log2_lt_pow2; lia. }
  rewrite <- N.lxor_lor by exact Hland.
  rewrite <- N.add_nocarry_lxor by exact Hland.
  rewrite N.shiftl_mul_pow2. reflexivity.
Qed.

Lemma lor_high_low h b k :
  (b < 2 ^ k)%N -> N.lor (h * 2 ^ k) b = (h * 2 ^ k + b)%N.
Proof.
  intros Hb. rewrite <- (lor_shiftl_low h k Hb), N.shiftl_mul_pow2. reflexivity.
Qed.

(** The two halves of a code point above U+FFFF, and their joining. *)
Lemma surrogate_pair c :
  (65536 <= c < 1114112)%N ->
  let n := (c - 65536)%N in
  let hi := N.lor 55296 (N.land (N.shiftr n 10) 1023) in
  let lo := N.lor 56320 (N.land n 1023) in
  (55296 <= hi <= 56319)%N /\ (56320 <= lo <= 57343)%N /\
  (65536 + N.lor (N.shiftl (hi - 55296) 10) (lo - 56320))%N = c.
Proof.
  intros Hc n hi lo.
  assert (Ha : N.land (N.shiftr n 10) 1023 = (n / 1024)%N).
  { rewrite N.shiftr_div_pow2. change 1023%N with (N.ones 10).
    rewrite N.land_ones. apply N.mod_small. change (2 ^ 10)%N with 1024%N.
    subst n. zify; Z.to_euclidean_division_equations; lia. }
  assert (Hb : N.land n 1023 = (n mod 1024)%N).
  { change 1023%N with (N.ones 10). rewrite N.land_ones. reflexivity. }
  assert (Hhi : hi = (55296 + n / 1024)%N).
  { subst hi. rewrite Ha. change 55296%N with (54 * 2 ^ 10)%N.
    apply lor_high_low. change (2 ^ 10)%N with 1024%N.
    subst n. zify; Z.to_euclidean_division_equations; lia. }
  assert (Hlo : lo = (56320 + n mod 1024)%N).
  { subst lo. rewrite Hb. change 56320%N with (55 * 2 ^ 10)%N.
    apply lor_high_low. apply N.mod_lt. discriminate. }
  rewrite Hhi, Hlo.
  replace (55296 + n / 1024 - 55296)%N with (n / 1024)%N by lia.
  replace (56320 + n mod 1024 - 56320)%N with (n mod 1024)%N by lia.
  rewrite lor_shiftl_low by (apply N.mod_lt; discriminate).
  change (2 ^ 10)%N with 1024%N.
  subst n. zify; Z.to_euclidean_division_equations; lia.
Qed.


Lemma scan_one_letter e ch tail :
  N.eqb e 117 = false -> unescape e = Some ch ->
  scan_string (backslash :: e :: tail) = push ch (scan_string tail).
Proof.
  intros He Hch. cbn [scan_string].
  change (N.eqb backslash quote) with false.
  change (N.eqb backslash backslash) with true. cbv iota.
  rewrite He, Hch. reflexivity.
Qed.

Lemma scan_u_escape a b c d uni tail :
  hex4 a b c d = Some uni -> in_range 55296 56319 uni = false ->
  scan_string (backslash :: 117%N :: a :: b :: c :: d :: tail) =
  push uni (scan_string tail).
Proof.
  intros Hhex Hlow. cbn [scan_string].
  change (N.eqb backslash quote) with false.
  change (N.eqb backslash backslash) with true.
  change (N.eqb 117 117) with true. cbv iota.
  rewrite Hhex, Hlow. reflexivity.
Qed.

Lemma scan_u_pair a b c d a' b' c' d' hi lo tail :
  hex4 a b c d = Some hi -> in_range 55296 56319 hi = true ->
  hex4 a' b' c' d' = Some lo -> in_range 56320 57343 lo = true ->
  scan_string (backslash :: 117%N :: a :: b :: c :: d ::
               backslash :: 117%N :: a' :: b' :: c' :: d' :: tail) =
  push (65536 + N.lor (N.shiftl (hi - 55296) 10) (lo - 56320))%N
       (scan_string tail).
Proof.
  intros Hhi Hrange Hlo Hrange'. 
  remember (scan_string tail) as rest_scan.
  cbn [scan_string].
  change (N.eqb backslash quote) with false.
  change (N.eqb backslash backslash) with true.
  change (N.eqb 117 117) with true. cbv iota.
  rewrite Hhi, Hrange. cbn [andb]. rewrite Hlo, Hrange'.
  subst rest_scan. reflexivity.
Qed.

Lemma scan_plain c tail :
  N.eqb c quote = false -> N.eqb c backslash = false -> N.ltb c 32 = false ->
  scan_string (c :: tail) = push c (scan_string tail).
Proof. intros H1 H2 H3. cbn [scan_string]. rewrite H1, H2, H3. reflexivity. Qed.

(** The scanner reads back one escaped code point. *)
Lemma scan_escape_cp c tail :
  is_scalar c = true ->
  scan_string (escape_cp c ++ tail) = push c (scan_string tail).
Proof.
  unfold is_scalar, in_range. intros Hc. apply andb_prop in Hc.
  destruct Hc as [Hmax Hsur]. apply N.ltb_lt in Hmax.
  assert (Hout : (c < 55296 \/ 57343 < c)%N).
  { destruct (N.leb_spec 55296 c), (N.leb_spec c 57343); cbn in Hsur;
      try discriminate; lia. }
  clear Hsur. unfold escape_cp.
  destruct (N.eqb_spec c quote) as [-> | Hq]; [apply scan_one_letter; reflexivity |].
  destruct (N.eqb_spec c backslash) as [-> | Hb]; [apply scan_one_letter; reflexivity |].
  destruct (N.eqb_spec c 10) as [-> | H10]; [apply scan_one_letter; reflexivity |].
  destruct (N.eqb_spec c 13) as [-> | H13]; [apply scan_one_letter; reflexivity |].
  destruct (N.eqb_spec c 9) as [-> | H9]; [apply scan_one_letter; reflexivity |].
  destruct (N.eqb_spec c 8) as [-> | H8]; [apply scan_one_letter; reflexivity |].
  destruct (N.eqb_spec c 12) as [-> | H12]; [apply scan_one_letter; reflexivity |].
  unfold in_range.
  destruct (N.leb_spec 32 c) as [Hlo | Hlo]; cbn [andb].
  - destruct (N.leb_spec c 126) as [Hhi | Hhi].
    + apply scan_plain; [apply N.eqb_neq; exact Hq | apply N.eqb_neq; exact Hb |].
      apply N.ltb_ge. exact Hlo.
    + destruct (N.ltb_spec c 65536) as [Hbmp | Hbmp].
      * destruct (hex4_u_escape tail Hbmp) as (a & b & x & d & -> & Hhex).
        apply scan_u_escape; [exact Hhex |].
        unfold in_range.
        destruct (N.leb_spec 55296 c), (N.leb_spec c 56319);
          cbn [andb]; try reflexivity; exfalso; lia.
      * destruct (surrogate_pair (c := c)) as (Hhi' & Hlo' & Hjoin); [lia |].
        cbv zeta in Hhi', Hlo', Hjoin.
        rewrite <- app_assoc.
        destruct (hex4_u_escape
                    (u_escape (N.lor 56320 (N.land (c - 65536) 1023)) ++ tail)
                    (n := N.lor 55296 (N.land (N.shiftr (c - 65536) 10) 1023)))
          as (a & b & x & d & -> & Hhex); [lia |].
        destruct (hex4_u_escape tail
                    (n := N.lor 56320 (N.land (c - 65536) 1023)))
          as (a' & b' & x' & d' & -> & Hhex'); [lia |].
        erewrite scan_u_pair; [| exact Hhex | | exact Hhex' |].
        -- rewrite Hjoin. reflexivity.
        -- unfold in_range. apply andb_true_intro. split; apply N.leb_le; lia.
        -- unfold in_range. apply andb_true_intro. split; apply N.leb_le; lia.
  - destruct (hex4_u_escape tail (n := c)) as (a & b & x & d & Heq & Hhex); [lia |].
    replace (N.ltb c 65536) with true by (symmetry; apply N.ltb_lt; lia).
    rewrite Heq. apply scan_u_escape; [exact Hhex |].
    unfold in_range. destruct (N.leb_spec 55296 c); [lia | reflexivity].
Qed.

Lemma scan_encoded s : forall rest,
  clean_str s ->
  scan_string (flat_map escape_cp s ++ quote :: rest) = Some (s, rest).
Proof.
  induction s as [| c s IH]; intros rest Hs.
  - cbn [flat_map app scan_string]. rewrite N.eqb_refl. reflexivity.
  - inversion Hs as [| ? ? Hc Hs']; subst.
    cbn [flat_map]. rewrite <- app_assoc.
    rewrite scan_escape_cp by exact Hc. rewrite IH by exact Hs'. reflexivity.
Qed.

Lemma scan_encode_str s rest :
  clean_str s ->
  exists tail, encode_str s ++ rest = quote :: tail /\
               scan_string tail = Some (s, rest).
Proof.
  intros Hs. exists (flat_map escape_cp s ++ quote :: rest). split.
  - unfold encode_str. cbn [app]. rewrite <- app_assoc. reflexivity.
  - apply scan_encoded. exact Hs.
Qed.


(** *** Integers *)

Lemma uint_digits d :
  Forall (fun c => is_digit c = true) (str (NilEmpty.string_of_uint d)).
Proof.
  induction d; cbn; constructor; try reflexivity; assumption.
Qed.

Lemma digits_value_acc d : forall a,
  fold_left (fun acc c => (acc * 10 + digit_val c)%Z)
            (str (NilEmpty.string_of_uint d)) (Z.pos a) =
  Z.pos (Pos.of_uint_acc d a).
Proof.
  induction d; intros a; cbn [NilEmpty.string_of_uint str list_ascii_of_string
                               map fold_left Pos.of_uint_acc];
    try reflexivity;
    match goal with
    | |- fold_left _ _ ?x = Z.pos (Pos.of_uint_acc _ ?y) =>
        replace x with (Z.pos y);
        [| match goal with
           | |- _ = (_ + ?dv)%Z =>
               let v := eval vm_compute in dv in change dv with v
           end; lia ]
    end; apply IHd.
Qed.

Lemma digits_value_uint d :
  digits_value (str (NilEmpty.string_of_uint d)) = Z.of_N (Pos.of_uint d).
Proof.
  unfold digits_value.
  induction d; cbn [NilEmpty.string_of_uint str list_ascii_of_string
                    map fold_left Pos.of_uint];
    try reflexivity; try exact IHd;
    match goal with
    | |- fold_left _ _ ?x = Z.of_N (N.pos (Pos.of_uint_acc _ ?y)) =>
        change x with (Z.pos y)
    end; apply digits_value_acc.
Qed.

Lemma span_all_digits l :
  Forall (fun c => is_digit c = true) l -> span_digits l = (l, []).
Proof.
  induction 1 as [| c l Hc _ IH]; cbn [span_digits]; [reflexivity |].
  rewrite Hc, IH. reflexivity.
Qed.

(** The decimal digits of a positive number start with a digit that is
    not zero. *)
Lemma to_uint_head p :
  exists c rest,
    str (NilEmpty.string_of_uint (Pos.to_uint p)) = c :: rest /\
    in_range 49 57 c = true /\
    NilZero.string_of_uint (Pos.to_uint p) =
    NilEmpty.string_of_uint (Pos.to_uint p).
Proof.
  pose proof (DecimalPos.Unsigned.to_of (Pos.to_uint p)) as Hnorm.
  rewrite DecimalPos.Unsigned.of_to in Hnorm. cbn [N.to_uint] in Hnorm.
  pose proof (DecimalPos.Unsigned.to_uint_nonnil p) as Hnil.
  pose proof (DecimalPos.Unsigned.to_uint_nonzero p) as Hzero.
  destruct (Pos.to_uint p) as [| u | u | u | u | u | u | u | u | u | u] eqn:Hd;
    try (do 2 eexists; split; [reflexivity | split; reflexivity]).
  - contradiction.
  - exfalso. unfold Decimal.unorm in Hnorm. cbn [Decimal.nzhead] in Hnorm.
    destruct (Decimal.nzhead u) eqn:Hu;
      try (apply (DecimalFacts.nzhead_nonzero u u); rewrite Hu; symmetry; exact Hnorm).
    apply Hzero. exact Hnorm.
Qed.

Lemma match_integer_eq s :
  match_integer s =
  let (sign, s1) :=
    match s with
    | c :: s' => if N.eqb c 45 then ([45%N], s') else ([], s)
    | [] => ([], s)
    end in
  match s1 with
  | c :: r =>
      if N.eqb c 48 then Some (sign ++ [c], r)
      else if in_range 49 57 c
      then let (d, r') := span_digits r in Some (sign ++ c :: d, r')
      else None
  | [] => None
  end.
Proof.
  destruct s as [| c s']; [reflexivity |].
  destruct (N.eqb_spec c 45) as [-> | Hne]; [reflexivity |].
  unfold match_integer.
  destruct c as [| p]; [reflexivity |].
  do 6 (destruct p as [p | p |]; try reflexivity). contradiction.
Qed.

Lemma match_frac_eq s :
  match_frac s =
  match s with
  | c :: r =>
      if N.eqb c 46 then
        match span_digits r with
        | ([], _) => ([], s)
        | (d, r') => (46%N :: d, r')
        end
      else ([], s)
  | [] => ([], s)
  end.
Proof.
  destruct s as [| c s']; [reflexivity |].
  destruct (N.eqb_spec c 46) as [-> | Hne]; [reflexivity |].
  unfold match_frac.
  destruct c as [| p]; [reflexivity |].
  do 6 (destruct p as [p | p |]; try reflexivity). contradiction.
Qed.

Lemma int_of_literal_eq s :
  int_of_literal s =
  match s with
  | c :: d => if N.eqb c 45 then (- digits_value d)%Z else digits_value s
  | [] => digits_value s
  end.
Proof.
  destruct s as [| c s']; [reflexivity |].
  destruct (N.eqb_spec c 45) as [-> | Hne]; [reflexivity |].
  unfold int_of_literal.
  destruct c as [| p]; [reflexivity |].
  do 6 (destruct p as [p | p |]; try reflexivity). contradiction.
Qed.

Lemma delimiter_head c rest :
  at_delimiter (c :: rest) ->
  is_digit c = false /\ N.eqb c 45 = false /\ N.eqb c 46 = false /\
  N.eqb c 101 = false /\ N.eqb c 69 = false /\ N.eqb c 43 = false /\
  is_ws c = false.
Proof.
  cbn. intros [-> | [-> | ->]]; repeat split.
Qed.

Lemma span_digits_app s rest :
  at_delimiter rest ->
  span_digits (s ++ rest) = (fst (span_digits s), snd (span_digits s) ++ rest).
Proof.
  intros Hrest. induction s as [| c s IH].
  - destruct rest as [| x rest]; [reflexivity |].
    apply delimiter_head in Hrest. destruct Hrest as [Hd _].
    cbn [app span_digits fst snd]. rewrite Hd. reflexivity.
  - cbn [app span_digits]. destruct (is_digit c); [| reflexivity].
    rewrite IH. destruct (span_digits s). reflexivity.
Qed.

Lemma match_integer_app s rest i r :
  at_delimiter rest -> match_integer s = Some (i, r) ->
  match_integer (s ++ rest) = Some (i, r ++ rest).
Proof.
  intros Hrest. rewrite !match_integer_eq.
  assert (Hbody : forall sign s1,
    match s1 with
    | c :: r0 =>
        if N.eqb c 48 then Some (sign ++ [c], r0)
        else if in_range 49 57 c
        then let (d, r') := span_digits r0 in Some (sign ++ c :: d, r')
        else None
    | [] => None
    end = Some (i, r) ->
    match s1 ++ rest with
    | c :: r0 =>
        if N.eqb c 48 then Some (sign ++ [c], r0)
        else if in_range 49 57 c
        then let (d, r') := span_digits r0 in Some (sign ++ c :: d, r')
        else None
    | [] => None
    end = Some (i, r ++ rest)).
  { intros sign [| c r0]; [discriminate |]. cbn [app].
    destruct (N.eqb c 48).
    - intros H. inversion H; subst. reflexivity.
    - destruct (in_range 49 57 c); [| discriminate].
      rewrite (span_digits_app r0 rest Hrest). destruct (span_digits r0) as [d r'].
      cbn [fst snd]. intros H. inversion H; subst. reflexivity. }
  destruct s as [| c s']; [discriminate |].
  cbn [app]. destruct (N.eqb c 45).
  - apply Hbody.
  - apply (Hbody [] (c :: s')).
Qed.

Lemma match_frac_app s rest :
  at_delimiter rest ->
  match_frac (s ++ rest) = (fst (match_frac s), snd (match_frac s) ++ rest).
Proof.
  intros Hrest. rewrite !match_frac_eq. destruct s as [| c s'].
  - destruct rest as [| x rest]; [reflexivity |].
    apply delimiter_head in Hrest. destruct Hrest as (_ & _ & Hp & _).
    cbn [app]. rewrite Hp. reflexivity.
  - cbn [app]. destruct (N.eqb c 46); [| reflexivity].
    rewrite (span_digits_app s' rest Hrest).
    destruct (span_digits s') as [[| x d] r']; reflexivity.
Qed.

Lemma match_exp_app s rest :
  at_delimiter rest ->
  match_exp (s ++ rest) = (fst (match_exp s), snd (match_exp s) ++ rest).
Proof.
  intros Hrest. destruct s as [| c s'].
  - destruct rest as [| x rest]; [reflexivity |].
    apply delimiter_head in Hrest. destruct Hrest as (_ & _ & _ & He & HE & _).
    cbn [app match_exp]. rewrite He, HE. reflexivity.
  - cbn [app match_exp]. destruct (N.eqb c 101 || N.eqb c 69); [| reflexivity].
    destruct s' as [| x r'].
    + cbn [app]. destruct rest as [| y rest]; [reflexivity |].
      apply delimiter_head in Hrest. destruct Hrest as (Hd & Hm & _ & _ & _ & Hp & _).
      rewrite Hp, Hm. cbn [orb span_digits]. rewrite Hd. reflexivity.
    + cbn [app]. destruct (N.eqb x 43 || N.eqb x 45).
      * rewrite (span_digits_app r' rest Hrest).
        destruct (span_digits r') as [[| y d] r2]; reflexivity.
      * change (x :: r' ++ rest) with ((x :: r') ++ rest).
        rewrite (span_digits_app (x :: r') rest Hrest).
        destruct (span_digits (x :: r')) as [[| y d] r2]; reflexivity.
Qed.

(** A number token is matched the same way when the text goes on with a
    delimiter. *)
Lemma match_number_app s rest t b r :
  at_delimiter rest -> match_number s = Some (t, b, r) ->
  match_number (s ++ rest) = Some (t, b, r ++ rest).
Proof.
  intros Hrest. unfold match_number.
  destruct (match_integer s) as [[i r0] |] eqn:Hi; [| discriminate].
  erewrite match_integer_app; [| exact Hrest | exact Hi].
  rewrite (match_frac_app r0 rest Hrest). destruct (match_frac r0) as [f r1].
  cbn [fst snd].
  rewrite (match_exp_app r1 rest Hrest). destruct (match_exp r1) as [e r2].
  cbn [fst snd]. intros H. inversion H; subst. reflexivity.
Qed.

Lemma repr_int_token z :
  match_number (repr_int z) = Some (repr_int z, false, []) /\
  int_of_literal (repr_int z) = z.
Proof.
  destruct z as [| p | p]; [split; reflexivity | |];
    destruct (to_uint_head p) as (c & rest & Hd & Hc & Hz);
    pose proof (uint_digits (Pos.to_uint p)) as Hall;
    pose proof (digits_value_uint (Pos.to_uint p)) as Hval;
    rewrite DecimalPos.Unsigned.of_to in Hval;
    unfold repr_int, Z.to_int, NilZero.string_of_int; rewrite Hz;
    rewrite Hd in Hall, Hval; inversion Hall as [| ? ? _ Hrest]; subst;
    assert (H48 : N.eqb c 48 = false)
      by (unfold in_range in Hc; apply andb_prop in Hc; destruct Hc as [Hlo _];
          apply N.leb_le in Hlo; apply N.eqb_neq; lia);
    assert (H45 : N.eqb c 45 = false)
      by (unfold in_range in Hc; apply andb_prop in Hc; destruct Hc as [Hlo _];
          apply N.leb_le in Hlo; apply N.eqb_neq; lia).
  - rewrite Hd. split.
    + unfold match_number. rewrite match_integer_eq, H45, H48, Hc.
      rewrite (span_all_digits Hrest). cbn [app match_frac match_exp is_nil andb negb].
      rewrite !app_nil_r. reflexivity.
    + rewrite int_of_literal_eq, H45. exact Hval.
  - change (str (String "-" (NilEmpty.string_of_uint (Pos.to_uint p))))
      with (45%N :: str (NilEmpty.string_of_uint (Pos.to_uint p))).
    rewrite Hd. split.
    + unfold match_number. rewrite match_integer_eq.
      change (N.eqb 45 45) with true. cbv iota. rewrite H48, Hc.
      rewrite (span_all_digits Hrest). cbn [app match_frac match_exp is_nil andb negb].
      rewrite !app_nil_r. reflexivity.
    + rewrite int_of_literal_eq. change (N.eqb 45 45) with true. cbv iota.
      rewrite Hval. reflexivity.
Qed.

Lemma number_head s t b r :
  match_number s = Some (t, b, r) ->
  exists c s', s = c :: s' /\ (c = 45%N \/ is_digit c = true).
Proof.
  unfold match_number. rewrite match_integer_eq.
  destruct s as [| c s']; [discriminate |]. intros H.
  exists c, s'. split; [reflexivity |].
  destruct (N.eqb_spec c 45) as [-> | Hne]; [left; reflexivity | right].
  destruct (N.eqb_spec c 48) as [-> | H48]; [reflexivity |].
  destruct (in_range 49 57 c) eqn:Hc; [| discriminate].
  unfold is_digit, in_range in *. apply andb_prop in Hc. destruct Hc as [Hlo Hhi].
  rewrite Hhi, andb_true_r. apply N.leb_le in Hlo. apply N.leb_le. lia.
Qed.

Lemma number_head_neq c k :
  c = 45%N \/ is_digit c = true -> is_digit k = false -> k <> 45%N ->
  N.eqb c k = false /\ N.eqb k c = false.
Proof.
  intros Hc Hk Hne. split; apply N.eqb_neq; intros ->;
    (destruct Hc as [Hc | Hc]; [congruence | rewrite Hc in Hk; discriminate]).
Qed.

Lemma scan_atom_number s t b r :
  match_number s = Some (t, b, r) ->
  scan_atom s = Some (if b then JFloat (float_of_literal t)
                      else JInt (int_of_literal t), r).
Proof.
  intros H. destruct (number_head _ H) as (c & s' & -> & Hc).
  unfold scan_atom. cbn [str list_ascii_of_string map strip_prefix].
  change (N_of_ascii "n") with 110%N. change (N_of_ascii "t") with 116%N.
  change (N_of_ascii "f") with 102%N.
  destruct (number_head_neq (k := 110) Hc) as [_ ->]; [reflexivity | discriminate |].
  destruct (number_head_neq (k := 116) Hc) as [_ ->]; [reflexivity | discriminate |].
  destruct (number_head_neq (k := 102) Hc) as [_ ->]; [reflexivity | discriminate |].
  rewrite H. reflexivity.
Qed.

Lemma atom_reads_back v rest fuel :
  atom v -> at_delimiter rest ->
  parse_value (S fuel) (dumps v ++ rest) = Scanned v rest.
Proof.
  intros Hv Hrest.
  assert (Hnum : forall b t,
            match_number (dumps v) = Some (dumps v, b, []) ->
            (if b then JFloat (float_of_literal (dumps v))
             else JInt (int_of_literal (dumps v))) = t ->
            parse_value (S fuel) (dumps v ++ rest) = Scanned t rest).
  { intros b t Hm Ht.
    pose proof (match_number_app (dumps v) rest Hrest Hm) as Hm'.
    cbn [app] in Hm'.
    destruct (number_head _ Hm) as (c & s' & Hs & Hc).
    rewrite Hs in *. cbn [app parse_value].
    destruct (number_head_neq (k := quote) Hc) as [-> _];
      [reflexivity | discriminate |].
    destruct (number_head_neq (k := 123) Hc) as [-> _];
      [reflexivity | discriminate |].
    destruct (number_head_neq (k := 91) Hc) as [-> _];
      [reflexivity | discriminate |].
    change (c :: s' ++ rest) with ((c :: s') ++ rest).
    rewrite (scan_atom_number _ Hm'), Ht. reflexivity. }
  destruct v as [| [|] | z | f | | |]; try contradiction; try reflexivity.
  - destruct (repr_int_token z) as [Hm Hv']. apply (Hnum false); [exact Hm |].
    cbn [dumps]. rewrite Hv'. reflexivity.
  - cbn [dumps] in *.
    destruct (floatstr_reads_back f) as [[-> ->] | [[-> ->] | [[-> ->] | [Hm Hf]]]];
      try reflexivity.
    apply (Hnum true); [exact Hm |]. rewrite Hf. reflexivity.
Qed.

(** *** Containers *)

Lemma json_nested_ind (P : json -> Prop) :
  P JNull -> (forall b, P (JBool b)) -> (forall z, P (JInt z)) ->
  (forall f, P (JFloat f)) -> (forall s, P (JStr s)) ->
  (forall l, Forall P l -> P (JList l)) ->
  (forall d, Forall (fun kv => P (snd kv)) d -> P (JDict d)) ->
  forall v, P v.
Proof.
  intros Hnull Hbool Hint Hfloat Hstr Hlist Hdict.
  fix IH 1. intros [| b | z | f | s | l | d].
  - exact Hnull.
  - apply Hbool.
  - apply Hint.
  - apply Hfloat.
  - apply Hstr.
  - apply Hlist.
    exact ((fix all (l : list json) : Forall P l :=
              match l with
              | [] => Forall_nil P
              | x :: l' => Forall_cons x (IH x) (all l')
              end) l).
  - apply Hdict.
    exact ((fix all (d : list (pystr * json)) : Forall (fun kv => P (snd kv)) d :=
              match d with
              | [] => Forall_nil _
              | kv :: d' => Forall_cons kv (IH (snd kv)) (all d')
              end) d).
Qed.

Lemma clean_list l : clean (JList l) <-> Forall clean l.
Proof.
  cbn [clean]. induction l as [| x l IH].
  - split; [constructor | trivial].
  - split.
    + intros [Hx Hl]. constructor; [exact Hx | apply IH; exact Hl].
    + intros H. inversion H; subst. split; [assumption | apply IH; assumption].
Qed.

Lemma clean_dict d :
  clean (JDict d) <->
  NoDup (map fst d) /\
  Forall (fun kv => clean_str (fst kv) /\ clean (snd kv)) d.
Proof.
  cbn [clean]. apply and_iff_compat_l. induction d as [| kv d IH].
  - split; [constructor | trivial].
  - split.
    + intros [Hx Hl]. constructor; [exact Hx | apply IH; exact Hl].
    + intros H. inversion H; subst. split; [assumption | apply IH; assumption].
Qed.

Lemma dict_set_fresh k v : forall d,
  ~ In k (map fst d) -> dict_set k v d = d ++ [(k, v)].
Proof.
  induction d as [| [k' v'] d IH]; intros Hk; [reflexivity |].
  cbn [dict_set map fst In app] in *.
  rewrite str_eqb_neq by (intros ->; apply Hk; left; reflexivity).
  rewrite IH by (intros Hin; apply Hk; right; exact Hin). reflexivity.
Qed.

(** A list of pairs with distinct keys is the [dict] it makes. *)
Lemma dict_of_distinct_pairs d : NoDup (map fst d) -> dict_of_pairs d = d.
Proof.
  unfold dict_of_pairs. change d with ([] ++ d) at 1 3.
  generalize (@nil (pystr * json)) as acc.
  induction d as [| [k v] d IH]; intros acc Hnd; cbn [fold_left fst snd].
  - rewrite app_nil_r. reflexivity.
  - rewrite map_app in Hnd. cbn [map fst] in Hnd.
    pose proof (NoDup_remove_2 _ _ _ Hnd) as Hfresh.
    rewrite dict_set_fresh
      by (intros Hin; apply Hfresh; apply in_or_app; left; exact Hin).
    change ((k, v) :: d) with ([(k, v)] ++ d). rewrite app_assoc.
    apply IH. rewrite <- app_assoc, map_app. exact Hnd.
Qed.

Lemma starts_value_app s t : starts_value s -> starts_value (s ++ t).
Proof.
  intros (c & s' & -> & Hc). exists c, (s' ++ t). split; [reflexivity | exact Hc].
Qed.

Lemma skip_ws_value s : starts_value s -> skip_ws s = s.
Proof.
  intros (c & s' & -> & Hc & _). unfold skip_ws. cbn [lstrip]. rewrite Hc.
  reflexivity.
Qed.

Lemma dumps_starts_value v : starts_value (dumps v).
Proof.
  destruct v as [| [|] | z | f | s | l | d]; cbn [dumps];
    try (do 2 eexists; split; [reflexivity | split; reflexivity]).
  - destruct (repr_int_token z) as [Hm _].
    destruct (number_head _ Hm) as (c & s' & -> & Hc).
    exists c, s'. split; [reflexivity |].
    destruct (number_head_neq (k := 93) Hc) as [H93 _]; [reflexivity | discriminate |].
    split; [| exact H93]. unfold is_ws.
    destruct (number_head_neq (k := 32) Hc) as [-> _]; [reflexivity | discriminate |].
    destruct (number_head_neq (k := 9) Hc) as [-> _]; [reflexivity | discriminate |].
    destruct (number_head_neq (k := 10) Hc) as [-> _]; [reflexivity | discriminate |].
    destruct (number_head_neq (k := 13) Hc) as [-> _]; [reflexivity | discriminate |].
    reflexivity.
  - destruct (floatstr_reads_back f) as [[-> _] | [[-> _] | [[-> _] | [Hm _]]]];
      try (do 2 eexists; split; [reflexivity | split; reflexivity]).
    destruct (number_head _ Hm) as (c & s' & -> & Hc).
    exists c, s'. split; [reflexivity |].
    destruct (number_head_neq (k := 93) Hc) as [H93 _]; [reflexivity | discriminate |].
    split; [| exact H93]. unfold is_ws.
    destruct (number_head_neq (k := 32) Hc) as [-> _]; [reflexivity | discriminate |].
    destruct (number_head_neq (k := 9) Hc) as [-> _]; [reflexivity | discriminate |].
    destruct (number_head_neq (k := 10) Hc) as [-> _]; [reflexivity | discriminate |].
    destruct (number_head_neq (k := 13) Hc) as [-> _]; [reflexivity | discriminate |].
    reflexivity.
Qed.

Lemma dumps_not_empty v : 1 <= length (dumps v).
Proof.
  destruct (dumps_starts_value v) as (c & s' & -> & _). cbn [length]. lia.
Qed.

Lemma elements_read_back l :
  Forall reads_back l -> l <> [] ->
  forall fuel rest,
    2 * length (join_items (map dumps l)) + 1 <= fuel ->
    parse_elements fuel (join_items (map dumps l) ++ 93%N :: rest) =
    Scanned l rest.
Proof.
  induction 1 as [| x l Hx Hl IH]; intros Hne fuel rest Hfuel; [contradiction |].
  destruct fuel as [| fuel]; [lia |].
  destruct l as [| y l].
  - cbn [map join_items] in *. cbn [parse_elements].
    rewrite Hx; [| lia | right; left; reflexivity].
    cbn. reflexivity.
  - change (join_items (map dumps (x :: y :: l)))
      with (dumps x ++ str ", " ++ join_items (map dumps (y :: l))) in *.
    rewrite !length_app in Hfuel. cbn [str list_ascii_of_string map length] in Hfuel.
    rewrite <- !app_assoc. cbn [parse_elements].
    rewrite Hx; [| lia | left; reflexivity].
    cbn [scan_then str list_ascii_of_string map app].
    change (N_of_ascii ",") with 44%N. change (N_of_ascii " ") with 32%N.
    unfold skip_ws at 1. cbn [lstrip]. change (is_ws 44) with false. cbv iota.
    change (N.eqb 44 93) with false. change (N.eqb 44 44) with true. cbv iota.
    unfold skip_ws at 1. cbn [lstrip]. change (is_ws 32) with true. cbv iota.
    fold skip_ws. fold (skip_ws (join_items (map dumps (y :: l)) ++ 93%N :: rest)).
    rewrite skip_ws_value.
    + rewrite IH; [reflexivity | discriminate | ].
      cbn [map]. lia.
    + apply starts_value_app. cbn [map join_items].
      destruct l; [apply dumps_starts_value |].
      apply starts_value_app. apply dumps_starts_value.
Qed.

Lemma members_read_back d :
  Forall (fun kv => reads_back (snd kv)) d ->
  Forall (fun kv => clean_str (fst kv)) d -> d <> [] ->
  forall fuel rest,
    2 * length (join_items (map member_text d)) + 1 <= fuel ->
    exists tail,
      join_items (map member_text d) ++ 125%N :: rest = quote :: tail /\
      parse_members fuel tail = Scanned d rest.
Proof.
  induction 1 as [| [k v] d Hv Hd IH]; intros Hkeys Hne fuel rest Hfuel;
    [contradiction |].
  inversion Hkeys as [| ? ? Hk Hkeys']; subst. cbn [fst snd] in *.
  destruct fuel as [| fuel]; [lia |].
  assert (Hvalue : forall after,
            at_delimiter after ->
            2 * length (dumps v) <= fuel ->
            parse_members (S fuel)
              (flat_map escape_cp k ++ quote :: (str ": " ++ dumps v ++ after)) =
            scan_then (Scanned v after) (fun v r2 =>
              match skip_ws r2 with
              | c2 :: r3 =>
                  if N.eqb c2 125 then Scanned [(k, v)] r3
                  else if N.eqb c2 44 then
                    match skip_ws r3 with
                    | q :: r4 =>
                        if N.eqb q quote then
                          scan_then (parse_members fuel r4)
                            (fun pairs r5 => Scanned ((k, v) :: pairs) r5)
                        else @Malformed _
                    | [] => @Malformed _
                    end
                  else @Malformed _
              | [] => @Malformed _
              end)).
  { intros after Hafter Hlen. cbn [parse_members].
    rewrite scan_encoded by exact Hk.
    cbn [str list_ascii_of_string map app].
    change (N_of_ascii ":") with 58%N. change (N_of_ascii " ") with 32%N.
    unfold skip_ws at 1. cbn [lstrip]. change (is_ws 58) with false. cbv iota.
    change (N.eqb 58 58) with true. cbv iota.
    unfold skip_ws at 1. cbn [lstrip]. change (is_ws 32) with true. cbv iota.
    fold skip_ws. fold (skip_ws (dumps v ++ after)).
    rewrite skip_ws_value by (apply starts_value_app; apply dumps_starts_value).
    rewrite Hv by assumption. reflexivity. }
  destruct d as [| kv2 d].
  - cbn [map join_items] in *. unfold member_text in *. cbn [fst snd] in *.
    unfold encode_str in *. cbn [app]. rewrite <- ?app_assoc. cbn [app].
    eexists. split; [reflexivity |].
    rewrite !length_app in Hfuel. cbn [length] in Hfuel. rewrite !length_app in Hfuel.
    cbn [str list_ascii_of_string map length] in Hfuel.
    rewrite Hvalue; [| right; right; reflexivity | lia].
    cbn. reflexivity.
  - change (join_items (map member_text ((k, v) :: kv2 :: d)))
      with (member_text (k, v) ++ str ", " ++ join_items (map member_text (kv2 :: d)))
      in *.
    unfold member_text at 1. unfold member_text at 1 in Hfuel. cbn [fst snd] in *.
    unfold encode_str in *. cbn [app]. rewrite <- ?app_assoc. cbn [app].
    eexists. split; [reflexivity |].
    rewrite !length_app in Hfuel. cbn [length] in Hfuel. rewrite !length_app in Hfuel.
    cbn [str list_ascii_of_string map length] in Hfuel.
    rewrite <- ?app_assoc.
    destruct (IH Hkeys' ltac:(discriminate) fuel rest) as (tail & Htail & Hrest);
      [cbn [map]; lia |].
    rewrite Hvalue; [| left; reflexivity | lia].
    cbn [scan_then str list_ascii_of_string map app].
    change (N_of_ascii ",") with 44%N. change (N_of_ascii " ") with 32%N.
    unfold skip_ws at 1. cbn [lstrip]. change (is_ws 44) with false. cbv iota.
    change (N.eqb 44 125) with false. change (N.eqb 44 44) with true. cbv iota.
    unfold skip_ws at 1. cbn [lstrip]. change (is_ws 32) with true. cbv iota.
    change (member_text kv2 :: map member_text d)
      with (map member_text (kv2 :: d)).
    rewrite Htail. cbn [lstrip]. change (is_ws quote) with false. cbv iota.
    rewrite N.eqb_refl, Hrest. reflexivity.
Qed.

(** The parser reads every clean value back from the text written for
    it, whatever follows the value in a container. *)
Lemma value_reads_back v : clean v -> reads_back v.
Proof.
  induction v as [| b | z | f | s | l IH | d IH] using json_nested_ind;
    intros Hclean fuel rest Hfuel Hrest;
    match goal with
    | |- parse_value _ (dumps ?x ++ _) = _ =>
        pose proof (dumps_not_empty x) as Hlen
    end;
    (destruct fuel as [| fuel]; [lia |]);
    try (apply atom_reads_back; [exact I | exact Hrest]).
  - cbn [dumps]. unfold encode_str. cbn [app parse_value].
    rewrite N.eqb_refl. rewrite <- app_assoc. cbn [app].
    rewrite scan_encoded by exact Hclean. reflexivity.
  - destruct l as [| x l]; [reflexivity |].
    apply clean_list in Hclean.
    assert (Hall : Forall reads_back (x :: l)).
    { clear Hfuel Hlen. induction IH as [| y m Hy _ IHm]; [constructor |].
      inversion Hclean; subst. constructor; [apply Hy | apply IHm]; assumption. }
    cbn [dumps] in *. cbn [app parse_value].
    change (N.eqb 91 quote) with false. change (N.eqb 91 123) with false.
    change (N.eqb 91 91) with true. cbv iota.
    rewrite <- app_assoc. cbn [app].
    assert (Hstart : starts_value (join_items (map dumps (x :: l)) ++ 93%N :: rest)).
    { apply starts_value_app. cbn [map join_items].
      destruct l; [apply dumps_starts_value |].
      apply starts_value_app. apply dumps_starts_value. }
    rewrite skip_ws_value by exact Hstart.
    destruct Hstart as (c & s' & Heq & _ & H93). rewrite Heq, H93, <- Heq.
    rewrite elements_read_back; [reflexivity | exact Hall | discriminate |].
    cbn [length] in Hfuel. rewrite length_app in Hfuel. cbn [length] in Hfuel. lia.
  - destruct d as [| kv d]; [reflexivity |].
    apply clean_dict in Hclean. destruct Hclean as [Hkeys Hclean].
    assert (Hall : Forall (fun kv => reads_back (snd kv)) (kv :: d)).
    { clear Hfuel Hlen Hkeys. induction IH as [| y m Hy _ IHm]; [constructor |].
      inversion Hclean as [| ? ? [_ Hc] Hm]; subst.
      constructor; [apply Hy | apply IHm]; assumption. }
    assert (Hstr : Forall (fun kv => clean_str (fst kv)) (kv :: d)).
    { eapply Forall_impl; [| exact Hclean]. intros ? [Hk _]. exact Hk. }
    cbn [dumps] in *.
    change (fun kv0 : pystr * json =>
              encode_str (fst kv0) ++ str ": " ++ dumps (snd kv0))
      with member_text in *.
    cbn [app parse_value].
    change (N.eqb 123 quote) with false. change (N.eqb 123 123) with true.
    cbv iota. rewrite <- app_assoc. cbn [app].
    pose proof members_read_back as Hmembers.
    specialize (Hmembers (kv :: d) Hall Hstr ltac:(discriminate) fuel rest).
    destruct Hmembers as (tail & Htail & Hread);
      [cbn [length] in Hfuel; rewrite length_app in Hfuel; cbn [length] in Hfuel;
       match goal with
       | |- 2 * ?a + 1 <= _ =>
           match type of Hfuel with
           | 2 * S (?b + 1) <= _ => change b with a in Hfuel
           end
       end; lia |].
    match goal with
    | |- context [skip_ws ?t] =>
        replace t with (quote :: tail) by (symmetry; exact Htail)
    end.
    unfold skip_ws. cbn [lstrip]. change (is_ws quote) with false.
    cbv iota. change (N.eqb quote 125) with false. rewrite N.eqb_refl. cbv iota.
    rewrite Hread. cbn [scan_then].
    rewrite dict_of_distinct_pairs by exact Hkeys. reflexivity.
Qed.

(** [json.loads(json.dumps(v))] is [v]. *)
Lemma loads_dumps v : clean v -> loads (dumps v) = Some v.
Proof.
  intros Hclean. unfold loads.
  rewrite skip_ws_value by apply dumps_starts_value.
  rewrite <- (app_nil_r (dumps v)) at 2.
  rewrite value_reads_back; [reflexivity | exact Hclean | lia | exact I].
Qed.


(** ** Authoring from a script *)

Lemma create_node_scripted n lines :
  scripted n lines ->
  forall fuel w rest,
    length lines <= fuel -> stdin w = lines ++ rest ->
    exists shown,
      _create_node fuel (new_node (story_text n), w) =
      (Ret tt, (n, set_stdin rest (set_stdout (stdout w ++ shown) w))).
Proof.
  induction 1 as [text answer Hy
                 | text answer text1 line1 score1 text2 line2 score2
                     child1 child2 lines1 lines2 Hy Hs1 Hs2 Hc1 IH1 Hc2 IH2];
    intros fuel w rest Hfuel Hin;
    (destruct fuel as [| fuel]; [cbn in Hfuel; lia |]);
    destruct w as [ins out file werr clock]; cbn [stdin app] in Hin; subst ins.
  - cbn [_create_node story_text new_node]. run_io. rewrite Hy. run_io.
    eexists. rewrite <- !app_assoc. reflexivity.
  - cbn [_create_node story_text]. run_io. rewrite Hy. run_io.
    unfold to_int at 1. rewrite Hs1. run_io.
    unfold to_int at 1. rewrite Hs2. run_io.
    cbn [length] in Hfuel. rewrite length_app in Hfuel.
    match goal with
    | |- context [at_option1 _ (?n0, ?w0)] => set (nc := n0); set (wc := w0)
    end.
    unfold at_option1 at 1. cbn [fst snd].
    change (option1 nc) with (Some (new_node (story_text child1))). cbv iota.
    destruct (IH1 fuel wc (lines2 ++ rest)) as [shown1 Hrun1];
      [lia | subst wc; cbn [stdin]; rewrite <- app_assoc; reflexivity |].
    rewrite Hrun1. run_io.
    match goal with
    | |- context [at_option2 _ (?n0, ?w0)] => set (nd := n0); set (wd := w0)
    end.
    unfold at_option2 at 1. cbn [fst snd].
    change (option2 nd) with (Some (new_node (story_text child2))). cbv iota.
    destruct (IH2 fuel wd rest) as [shown2 Hrun2];
      [lia | subst wd; reflexivity |].
    rewrite Hrun2. subst nd nc wd wc. run_io.
    cbn [set_option1 set_option2 set_option1_text set_option2_text
         set_option1_score set_option2_score new_node story_text option1_text
         option2_text option1_score option2_score option1 option2].
    eexists. rewrite <- !app_assoc. reflexivity.
Qed.

Lemma create_game_scripted (g : AdventureGame) (w : World) (n : Node)
    (lines rest : list pystr) :
  scripted n lines ->
  stdin w = story_text n :: lines ++ rest ->
  exists shown,
    create_game (g, w) =
    (Ret tt, (set_root (Some n) g,
              set_stdin rest (set_stdout (stdout w ++ shown) w))).
Proof.
  intros Hscript Hin.
  destruct w as [ins out file werr clock]. cbn [stdin] in Hin. subst ins.
  unfold create_game. run_io.
  unfold at_root at 1. cbn [fst snd root set_root].
  unfold with_fuel. cbn [fst snd stdin].
  match goal with
  | |- context [_create_node _ (_, ?w0)] => set (wc := w0)
  end.
  pose proof (create_node_scripted Hscript) as Hnode.
  destruct (Hnode (S (length (lines ++ rest))) wc rest) as [shown Hrun];
    [rewrite length_app; lia | reflexivity |].
  rewrite Hrun. subst wc. run_io. cbn [set_root high_scores].
  eexists. rewrite <- !app_assoc. reflexivity.
Qed.



(** ** What a session can raise *)

Lemma raises_only_bind {X A B} P (m : M X A) (k : A -> M X B) :
  raises_only P m -> (forall a, raises_only P (k a)) -> raises_only P (bind m k).
Proof.
  intros Hm Hk s e. unfold bind. specialize (Hm s).
  destruct (m s) as [[a | e' |] s1]; cbn [fst] in *.
  - apply Hk.
  - intros H. injection H as <-. apply Hm. reflexivity.
  - discriminate.
Qed.

Lemma raises_only_quiet {X A} P (m : M X A) :
  (forall s, exists a s', m s = (Ret a, s')) -> raises_only P m.
Proof. intros H s e. destruct (H s) as (a & s' & ->). discriminate. Qed.

Lemma raises_only_print {X} P line : raises_only P (@print X line).
Proof. apply raises_only_quiet. intros s. eexists _, _. reflexivity. Qed.

Lemma raises_only_modify {X} P f : raises_only P (@modify X f).
Proof. apply raises_only_quiet. intros s. eexists _, _. reflexivity. Qed.

Lemma raises_only_self {X} P : raises_only P (@self X).
Proof. apply raises_only_quiet. intros s. eexists _, _. reflexivity. Qed.

Lemma raises_only_world {X} P : raises_only P (@world X).
Proof. apply raises_only_quiet. intros s. eexists _, _. reflexivity. Qed.

Lemma raises_only_ret {X A} P (a : A) : raises_only P (@ret X A a).
Proof. apply raises_only_quiet. intros s. eexists _, _. reflexivity. Qed.

Lemma raises_only_raise {X A} (P : exn -> Prop) e : P e -> raises_only P (@raise X A e).
Proof. intros H s e' E. cbn in E. injection E as <-. exact H. Qed.

Lemma raises_only_input {X} (P : exn -> Prop) prompt :
  P EOFError -> raises_only P (@input X prompt).
Proof.
  intros H [x w] e. unfold input. cbn [fst snd].
  destruct (stdin (emit (Asked prompt) w)); cbn [fst]; intros E;
    [injection E as <-; exact H | discriminate].
Qed.

Lemma raises_only_to_int {X} (P : exn -> Prop) line :
  P ValueError -> raises_only P (@to_int X line).
Proof.
  intros H. unfold to_int. destruct (int line);
    [apply raises_only_ret | apply raises_only_raise; exact H].
Qed.

Lemma raises_only_at_option1 P f :
  raises_only P f -> raises_only P (at_option1 f).
Proof.
  intros Hf [n w] e. unfold at_option1. cbn [fst snd].
  destruct (option1 n) as [c |]; [| discriminate].
  specialize (Hf (c, w) e). destruct (f (c, w)) as [r s']. exact Hf.
Qed.

Lemma raises_only_at_option2 P f :
  raises_only P f -> raises_only P (at_option2 f).
Proof.
  intros Hf [n w] e. unfold at_option2. cbn [fst snd].
  destruct (option2 n) as [c |]; [| discriminate].
  specialize (Hf (c, w) e). destruct (f (c, w)) as [r s']. exact Hf.
Qed.

Lemma create_node_raises fuel : raises_only input_error (_create_node fuel).
Proof.
  induction fuel as [| fuel IH]; [intros s e E; discriminate E |].
  cbn [_create_node].
  apply raises_only_bind; [apply raises_only_self | intros current_node].
  do 3 (apply raises_only_bind; [apply raises_only_print | intros _]).
  apply raises_only_bind; [apply raises_only_input; left; reflexivity | intros answer].
  destruct (str_eqb (lower answer) (str "y")); [apply raises_only_ret |].
  repeat (apply raises_only_bind;
          [ first [ apply raises_only_print | apply raises_only_modify
                  | apply raises_only_input; left; reflexivity
                  | apply raises_only_to_int; right; reflexivity
                  | apply raises_only_at_option1; exact IH ] | intros ]).
  apply raises_only_at_option2; exact IH.
Qed.

Lemma create_game_raises : raises_only input_error create_game.
Proof.
  unfold create_game.
  repeat (apply raises_only_bind;
          [ first [ apply raises_only_print | apply raises_only_modify
                  | apply raises_only_input; left; reflexivity ] | intros ]).
  apply raises_only_bind; [| intros; apply raises_only_print].
  intros [g w] e. unfold at_root, with_fuel. cbn [fst snd].
  destruct (root g) as [r |]; [| discriminate].
  pose proof (create_node_raises (S (length (stdin w)))) as H.
  unfold raises_only in H. specialize (H (r, w) e).
  destruct (_create_node (S (length (stdin w))) (r, w)) as [o s']. exact H.
Qed.



(** X3: starting a new story discards the old one as soon as the
    starting scenario is typed: however the session goes on, returning
    or failing half way, the story is then a tree whose root carries
    that text, and the scores in memory are untouched.  Only when the
    input is already at its end does the old story stay. *)
Theorem new_story_replaces_old (g : AdventureGame) (w : World) :
  (stdin w = [] ->
   fst (create_game (g, w)) = Exc EOFError /\
   fst (snd (create_game (g, w))) = g) /\
  (forall text lines, stdin w = text :: lines ->
   exists r,
     root (fst (snd (create_game (g, w)))) = Some r /\
     story_text r = text /\
     high_scores (fst (snd (create_game (g, w)))) = high_scores g).
Proof.
  destruct w as [ins out file werr clock]. cbn [stdin]. split.
  - intros ->. unfold create_game. run_io. split; reflexivity.
  - intros text lines ->.
    destruct (create_game _) as [o' [g' w']] eqn:Hrun. cbn [fst snd].
    unfold create_game in Hrun. run_io in Hrun.
    unfold at_root at 1 in Hrun. cbn [fst snd root set_root] in Hrun.
    unfold with_fuel in Hrun. cbn [fst snd stdin] in Hrun.
    match type of Hrun with
    | context [_create_node ?f (?n0, ?w0)] =>
        pose proof (create_node_keeps_text f (n0, w0)) as Hkeep;
        destruct (_create_node f (n0, w0)) as [o [r w1]]
    end.
    cbn [fst snd story_text new_node] in Hkeep.
    exists r.
    destruct o as [[] | e |]; run_io in Hrun; injection Hrun as _ <- _;
      cbn [root set_root high_scores]; repeat split; exact Hkeep.
Qed.


(** ** Play: what it leaves untouched *)

Lemma terminal_only_bind {X A B} (m : M X A) (k : A -> M X B) :
  terminal_only m -> (forall a, terminal_only (k a)) -> terminal_only (bind m k).
Proof.
  intros Hm Hk s. unfold bind. specialize (Hm s).
  destruct (m s) as [[a | e |] s1]; cbn [fst snd] in *; try exact Hm.
  destruct (Hk a s1) as (H1 & H2 & H3 & H4). destruct Hm as (K1 & K2 & K3 & K4).
  repeat split; congruence.
Qed.

Lemma terminal_only_print {X} line : terminal_only (@print X line).
Proof. intros s. repeat split. Qed.

Lemma terminal_only_ret {X A} (a : A) : terminal_only (@ret X A a).
Proof. intros s. repeat split. Qed.

Lemma terminal_only_raise {X A} e : terminal_only (@raise X A e).
Proof. intros s. repeat split. Qed.

Lemma terminal_only_input {X} prompt : terminal_only (@input X prompt).
Proof.
  intros [x w]. unfold input. cbn [fst snd].
  destruct (stdin (emit (Asked prompt) w)); repeat split.
Qed.

Lemma ask_name_terminal_only {X} fuel : forall first,
  terminal_only (@ask_name X fuel first).
Proof.
  induction fuel as [| fuel IH]; intros first; [intros s; repeat split |].
  cbn [ask_name]. destruct (is_nil (strip first)); [| apply terminal_only_ret].
  apply terminal_only_bind; [apply terminal_only_input | intros again; apply IH].
Qed.

Lemma play_loop_terminal_only {X} fuel : forall n t c,
  terminal_only (@play_loop X fuel n t c).
Proof.
  induction fuel as [| fuel IH]; intros n t c; [intros s; repeat split |].
  cbn [play_loop].
  do 2 (apply terminal_only_bind; [apply terminal_only_print | intros _]).
  destruct (is_ending n).
  - apply terminal_only_bind; [apply terminal_only_print | intros _].
    apply terminal_only_ret.
  - do 3 (apply terminal_only_bind; [apply terminal_only_print | intros _]).
    apply terminal_only_bind; [apply terminal_only_input | intros picked].
    destruct (str_eqb picked (str "1")).
    { destruct (option1 n); [apply IH | apply terminal_only_raise]. }
    destruct (str_eqb picked (str "2")).
    { destruct (option2 n); [apply IH | apply terminal_only_raise]. }
    apply terminal_only_bind; [apply terminal_only_print | intros _; apply IH].
Qed.

Lemma ask_name_raises {X} fuel : forall first,
  raises_only play_error (@ask_name X fuel first).
Proof.
  induction fuel as [| fuel IH]; intros first; [intros s e E; discriminate E |].
  cbn [ask_name]. destruct (is_nil (strip first)); [| apply raises_only_ret].
  apply raises_only_bind; [apply raises_only_input; left; reflexivity | intros; apply IH].
Qed.

Lemma play_loop_raises {X} fuel : forall n t c,
  raises_only play_error (@play_loop X fuel n t c).
Proof.
  induction fuel as [| fuel IH]; intros n t c; [intros s e E; discriminate E |].
  cbn [play_loop].
  do 2 (apply raises_only_bind; [apply raises_only_print | intros _]).
  destruct (is_ending n).
  - apply raises_only_bind; [apply raises_only_print | intros _].
    apply raises_only_ret.
  - do 3 (apply raises_only_bind; [apply raises_only_print | intros _]).
    apply raises_only_bind; [apply raises_only_input; left; reflexivity | intros picked].
    destruct (str_eqb picked (str "1")).
    { destruct (option1 n); [apply IH | apply raises_only_raise; right; reflexivity]. }
    destruct (str_eqb picked (str "2")).
    { destruct (option2 n); [apply IH | apply raises_only_raise; right; reflexivity]. }
    apply raises_only_bind; [apply raises_only_print | intros _; apply IH].
Qed.

Lemma ask_name_settles {X} fuel : forall first,
  settles fuel fuel (@ask_name X fuel first).
Proof.
  induction fuel as [| fuel IH]; intros first; [intros s Hs; inversion Hs |].
  cbn [ask_name]. destruct (is_nil (strip first)); [| apply settles_ret].
  eapply settles_bind; [apply settles_input_strict | intros again].
  eapply settles_weaken; [apply IH | lia].
Qed.

Lemma play_loop_settles {X} fuel : forall n t c,
  settles fuel fuel (@play_loop X fuel n t c).
Proof.
  induction fuel as [| fuel IH]; intros n t c; [intros s Hs; inversion Hs |].
  cbn [play_loop].
  do 2 (eapply settles_bind; [apply settles_print | intros _]).
  destruct (is_ending n).
  - eapply settles_bind; [apply settles_print | intros _]. apply settles_ret.
  - do 3 (eapply settles_bind; [apply settles_print | intros _]).
    eapply settles_bind; [apply settles_input_strict | intros picked].
    assert (Hnext : forall n' t' c', settles fuel (S fuel) (@play_loop X fuel n' t' c')).
    { intros. eapply settles_weaken; [apply IH | lia]. }
    destruct (str_eqb picked (str "1")).
    { destruct (option1 n); [apply Hnext | apply settles_raise]. }
    destruct (str_eqb picked (str "2")).
    { destruct (option2 n); [apply Hnext | apply settles_raise]. }
    eapply settles_bind; [apply settles_print | intros _; apply Hnext].
Qed.


Lemma safe_play_bind {A B} (m : M AdventureGame A) (k : A -> M AdventureGame B) :
  terminal_only m -> raises_only play_error m ->
  (forall s, fst (m s) <> Fuel) ->
  (forall a, safe_play (k a)) -> safe_play (bind m k).
Proof.
  intros Ht Hr Hf Hk s. unfold bind.
  specialize (Ht s). specialize (Hr s). specialize (Hf s).
  destruct (m s) as [[a | e |] s1]; cbn [fst snd] in *.
  - destruct Ht as (H1 & H2 & _). specialize (Hk a s1).
    destruct Hk as [Hroot Hout]. split; [congruence |].
    destruct (fst (k a s1)); [exact I | | exact Hout].
    destruct Hout as (He & Hg & Hfile). repeat split; congruence.
  - destruct Ht as (H1 & H2 & _). split; [congruence |].
    split; [apply Hr; reflexivity |]. split; assumption.
  - contradiction.
Qed.

Lemma with_fuel_terminal_only {X A} (f : nat -> M X A) :
  (forall fuel, terminal_only (f fuel)) -> terminal_only (with_fuel f).
Proof. intros H s. apply H. Qed.

Lemma with_fuel_raises {X A} P (f : nat -> M X A) :
  (forall fuel, raises_only P (f fuel)) -> raises_only P (with_fuel f).
Proof. intros H s. apply H. Qed.

Lemma with_fuel_settles {X A} (f : nat -> M X A) :
  (forall fuel, settles fuel fuel (f fuel)) ->
  forall s, fst (with_fuel f s) <> Fuel.
Proof.
  intros H s. unfold with_fuel.
  specialize (H (S (length (stdin (snd s)))) s (Nat.lt_succ_diag_r _)).
  destruct (f (S (length (stdin (snd s)))) s) as [[a | e |] s1]; cbn [fst];
    [discriminate | discriminate | contradiction].
Qed.

Lemma print_journey_terminal_only steps : forall i,
  terminal_only (@print_journey AdventureGame i steps).
Proof.
  induction steps as [| c steps IH]; intros i; cbn [print_journey];
    [apply terminal_only_ret |].
  do 3 (apply terminal_only_bind; [apply terminal_only_print | intros _]).
  apply IH.
Qed.

Lemma print_journey_returns steps i (s : AdventureGame * World) :
  exists s', print_journey i steps s = (Ret tt, s').
Proof. destruct s as [g w]. rewrite print_journey_run. eexists. reflexivity. Qed.

Ltac steady_step :=
  apply safe_play_bind;
  [ apply terminal_only_print
  | apply raises_only_print
  | intros ?; cbn [fst print]; discriminate
  | intros ].

Lemma save_returns (g : AdventureGame) (w : World) :
  exists w', save_high_scores (g, w) = (Ret tt, (g, w')).
Proof.
  destruct w as [ins out file werr clock].
  unfold save_high_scores. run_io. destruct werr; eexists; reflexivity.
Qed.

Lemma play_with_story_safe (root_node : Node) :
  safe_play
    (print (nl ++ str "Welcome to the Adventure Game!");;
     first <- input (str "Please enter your name: ");;
     player_name <- with_fuel (fun fuel => ask_name fuel first);;
     played <- with_fuel (fun fuel => play_loop fuel root_node 0 []);;
     (let (total_score, choices_made) := played : Z * list Step in
      print (nl ++ str "Game Over, " ++ player_name ++ str "!");;
      print (str "Your total score: " ++ repr_int total_score);;
      print (nl ++ str "Your journey:");;
      print_journey 1 choices_made;;
      w <- world;;
      append_score (score_entry player_name total_score (now w));;
      save_high_scores)).
Proof.
  steady_step.
  apply safe_play_bind. 1: apply terminal_only_input.
  1: (apply raises_only_input; left; reflexivity).
  1: { intros [? ?]; unfold input; cbn [fst snd];
            match goal with |- context [stdin ?w] => destruct (stdin w) end.
            all: cbn [fst]; discriminate. }
  intros.
  apply safe_play_bind;
    [ apply with_fuel_terminal_only; intros; apply ask_name_terminal_only
    | apply with_fuel_raises; intros; apply ask_name_raises
    | apply with_fuel_settles; intros; apply ask_name_settles | intros player_name ].
  apply safe_play_bind;
    [ apply with_fuel_terminal_only; intros; apply play_loop_terminal_only
    | apply with_fuel_raises; intros; apply play_loop_raises
    | apply with_fuel_settles; intros; apply play_loop_settles | intros [total steps] ].
  cbv beta iota. do 3 steady_step.
  apply safe_play_bind. 1: apply print_journey_terminal_only.
  1: { apply raises_only_quiet. intros s0.
       destruct (print_journey_returns steps 1 s0) as [s1 E]. eexists _, _. exact E. }
  1: { intros s0. destruct (print_journey_returns steps 1 s0) as [s1 E]. rewrite E. discriminate. }
  intros _.
  intros [g w]. run_io. unfold append_score. run_io.
  destruct (high_scores g) as [| | | | | l |] eqn:Hs;
    try (cbn; split; [reflexivity | split; [right; reflexivity | split; reflexivity]]).
  run_io.
  match goal with
  | |- context [save_high_scores (?g0, ?w0)] =>
      destruct (save_returns g0 w0) as [w' ->]
  end.
  cbn. split; [reflexivity | exact I].
Qed.

Lemma play_game_safe : safe_play play_game.
Proof.
  intros [g w].
  pose proof (fun r => play_with_story_safe r (g, w)) as Hstory.
  assert (Hnone : safe_play (@print AdventureGame (nl ++ str "No game has been created yet!"))).
  { intros s. split; [reflexivity | exact I]. }
  specialize (Hnone (g, w)).
  assert (E : play_game (g, w) =
              match root g with
              | None => print (nl ++ str "No game has been created yet!") (g, w)
              | Some root_node =>
                  (print (nl ++ str "Welcome to the Adventure Game!");;
                   first <- input (str "Please enter your name: ");;
                   player_name <- with_fuel (fun fuel => ask_name fuel first);;
                   played <- with_fuel (fun fuel => play_loop fuel root_node 0 []);;
                   (let (total_score, choices_made) := played : Z * list Step in
                    print (nl ++ str "Game Over, " ++ player_name ++ str "!");;
                    print (str "Your total score: " ++ repr_int total_score);;
                    print (nl ++ str "Your journey:");;
                    print_journey 1 choices_made;;
                    w <- world;;
                    append_score (score_entry player_name total_score (now w));;
                    save_high_scores)) (g, w)
              end).
  { unfold play_game, bind at 1, self at 1. cbn [fst snd].
    destruct (root g); reflexivity. }
  rewrite E. destruct (root g) as [r |]; [apply Hstory | exact Hnone].
Qed.



(** ** The player's name *)

Lemma ask_name_blanks {X} (x : X) blanks : forall first name rest fuel w,
  Forall (fun line => is_nil (strip line) = true) (first :: blanks) ->
  is_nil (strip name) = false ->
  stdin w = blanks ++ name :: rest ->
  length blanks + 1 < fuel ->
  ask_name fuel first (x, w) =
  (Ret name,
   (x, set_stdin rest
         (set_stdout
            (stdout w ++
             map (fun _ => Asked (str "Name cannot be empty. Please enter your name: "))
                 (first :: blanks)) w))).
Proof.
  induction blanks as [| line blanks IH]; intros first name rest fuel w Hb Hn Hin Hfuel;
    destruct w as [ins out file werr clock]; cbn [stdin app] in Hin; subst ins;
    inversion Hb as [| ? ? Hfirst Hrest]; subst.
  - destruct fuel as [| [| fuel]]; try (cbn in Hfuel; lia).
    cbn [ask_name]. rewrite Hfirst. run_io. rewrite Hn. reflexivity.
  - destruct fuel as [| fuel]; [cbn in Hfuel; lia |].
    cbn [ask_name]. rewrite Hfirst. run_io.
    erewrite IH; [| exact Hrest | exact Hn | reflexivity | cbn in Hfuel |- *; lia].
    run_io. cbn [map]. rewrite <- !app_assoc. reflexivity.
Qed.




(** ** The menu *)

Lemma main_loop_other_lines (g : AdventureGame) bad : forall fuel w rest,
  Forall not_a_menu_choice bad ->
  stdin w = bad ++ rest ->
  main_loop (length bad + fuel) (g, w) =
  main_loop fuel
    (g, set_stdin rest
          (set_stdout
             (stdout w ++
              flat_map (fun _ => menu_events ++
                                 [Printed (nl ++ str "Invalid choice! Please try again.")])
                       bad) w)).
Proof.
  induction bad as [| line bad IH]; intros fuel w rest Hbad Hin.
  - cbn. rewrite app_nil_r. destruct w; cbn in *. subst. reflexivity.
  - inversion Hbad as [| ? ? (H1 & H2 & H3 & H4) Hbad']; subst.
    destruct w as [ins out file werr clock]. cbn [stdin app] in Hin. subst ins.
    cbn [length Nat.add main_loop]. run_io.
    rewrite (str_eqb_neq H1), (str_eqb_neq H2), (str_eqb_neq H3), (str_eqb_neq H4).
    run_io. erewrite (IH fuel _ rest Hbad'); [| reflexivity]. run_io.
    unfold menu_events. cbn [flat_map app]. rewrite <- !app_assoc. reflexivity.
Qed.

(** X7: at the menu, any line other than "1", "2", "3" and "4" is
    answered by "Invalid choice! Please try again." and the menu is
    shown again, with the game object untouched; the line "4" then ends
    the program with a farewell, leaving the lines after it unread. *)
Theorem menu_rejects_then_exits (g : AdventureGame) (w : World)
    (bad rest : list pystr) :
  Forall not_a_menu_choice bad ->
  stdin w = bad ++ str "4" :: rest ->
  with_fuel main_loop (g, w) =
  (Ret tt,
   (g, set_stdin rest
         (set_stdout
            (stdout w ++
             flat_map (fun _ => menu_events ++
                                [Printed (nl ++ str "Invalid choice! Please try again.")])
                      bad
             ++ menu_events ++ [Printed (nl ++ str "Thanks for playing!")]) w))).
Proof.
  intros Hbad Hin. unfold with_fuel. cbn [fst snd]. rewrite Hin, length_app.
  cbn [length].
  replace (S (length bad + S (length rest))) with (length bad + S (S (length rest))) by lia.
  erewrite main_loop_other_lines; [| exact Hbad | exact Hin].
  destruct w as [ins out file werr clock].
  cbn [main_loop]. run_io.
  change (str_eqb (str "4") (str "1")) with false.
  change (str_eqb (str "4") (str "2")) with false.
  change (str_eqb (str "4") (str "3")) with false.
  change (str_eqb (str "4") (str "4")) with true. cbv iota. run_io.
  unfold menu_events. rewrite <- !app_assoc. reflexivity.
Qed.




(** ** Showing the scores *)

Lemma print_rows_run rows : forall (g : AdventureGame) w,
  exists shown,
    print_rows rows (g, w) =
    ((if forallb (fun x => is_some (table_row x)) rows then Ret tt else Exc TypeError),
     (g, set_stdout (stdout w ++ shown) w)).
Proof.
  induction rows as [| x rows IH]; intros g w.
  - exists []. cbn. unfold ret. rewrite app_nil_r. destruct w; reflexivity.
  - cbn [print_rows forallb]. destruct (table_row x) as [line |]; cbn [is_some andb].
    + run_io. destruct w as [ins out file werr clock]. run_io.
      destruct (IH g (mkWorld ins (out ++ [Printed line]) file werr clock)) as [shown ->].
      run_io. exists (Printed line :: shown).
      destruct (forallb _ rows); rewrite <- app_assoc; reflexivity.
    + exists []. unfold raise. rewrite app_nil_r. destruct w; reflexivity.
Qed.

Lemma show_keeps_or_clears (g : AdventureGame) (w : World) :
  truthy (high_scores g) = true ->
  let kept := kept_scores (high_scores g) in
  let result := show_high_scores (g, w) in
  fst result = Ret tt /\
  fst (snd result) = set_high_scores (JList kept) g /\
  stdin (snd (snd result)) = stdin w /\
  score_file (snd (snd result)) =
  match write_error w with
  | None => Content (dumps (JList kept))
  | Some _ => score_file w
  end.
Proof.
  intros Htrue kept result. subst kept result. unfold kept_scores.
  destruct (show_high_scores (g, w)) as [o [g' w']] eqn:Hrun. cbn [fst snd].
  destruct g as [rt hs]. destruct w as [ins out file werr clock].
  cbn [high_scores write_error stdin score_file] in *.
  unfold show_high_scores in Hrun. run_io in Hrun.
  cbn [high_scores] in Hrun. rewrite Htrue in Hrun.
  cbn [negb] in Hrun. unfold attempt in Hrun.
  destruct (iterate hs) as [entries |].
  - unfold or_raise at 1 in Hrun. run_io in Hrun.
    destruct (sorted_scores (normalize entries)) as [sorted |].
    + unfold or_raise at 1 in Hrun. run_io in Hrun.
      match type of Hrun with
      | context [print_rows sorted (?g0, ?w0)] =>
          destruct (print_rows_run sorted g0 w0) as [shown Hrows]
      end.
      rewrite Hrows in Hrun. clear Hrows.
      destruct (forallb (fun x => is_some (table_row x)) sorted).
      * unfold save_high_scores in Hrun. run_io in Hrun.
        destruct werr; run_io in Hrun; injection Hrun as <- <- <-;
          repeat split.
      * unfold save_high_scores in Hrun. run_io in Hrun.
        destruct werr; run_io in Hrun; injection Hrun as <- <- <-;
          repeat split.
    + unfold or_raise at 1 in Hrun. unfold save_high_scores in Hrun. run_io in Hrun.
      destruct werr; run_io in Hrun; injection Hrun as <- <- <-; repeat split.
  - unfold or_raise at 1 in Hrun. unfold save_high_scores in Hrun. run_io in Hrun.
    destruct werr; run_io in Hrun; injection Hrun as <- <- <-; repeat split.
Qed.



Lemma normalize_entry_record x y :
  In y (normalize_entry x) ->
  exists d v, y = JDict d /\ dict_get (str "score") d = Some v.
Proof.
  destruct x as [| b | z | f | s | l | d]; cbn [normalize_entry].
  - intros [].
  - intros [<- | []]. eexists _, _. split; reflexivity.
  - intros [<- | []]. eexists _, _. split; reflexivity.
  - intros [<- | []]. eexists _, _. split; reflexivity.
  - intros [].
  - intros [].
  - destruct (dict_get (str "score") d) as [v |] eqn:E; [| intros []].
    intros [<- | []]. exists d, v. split; [reflexivity | exact E].
Qed.

Lemma normalize_record d v :
  dict_get (str "score") d = Some v -> normalize_entry (JDict d) = [JDict d].
Proof. intros H. cbn [normalize_entry]. rewrite H. reflexivity. Qed.

(** X10: every entry that normalization keeps is a record with a
    "score" key, so the sort key of each can be taken; entries are never
    added, and normalizing a normalized list changes nothing. *)
Theorem normalized_entries_are_records (entries : list json) :
  Forall (fun x => exists d v, x = JDict d /\ dict_get (str "score") d = Some v)
         (normalize entries) /\
  decorate (normalize entries) <> None /\
  length (normalize entries) <= length entries /\
  normalize (normalize entries) = normalize entries.
Proof.
  assert (Hrec : Forall (fun x => exists d v, x = JDict d /\
                                    dict_get (str "score") d = Some v)
                        (normalize entries)).
  { apply Forall_forall. intros y Hy. unfold normalize in Hy.
    apply in_flat_map in Hy. destruct Hy as (x & _ & Hy).
    eapply normalize_entry_record. exact Hy. }
  split; [exact Hrec |]. split; [| split].
  - induction Hrec as [| y l (d & v & -> & Hv) _ IH]; [discriminate |].
    cbn [decorate sort_key]. rewrite Hv.
    destruct (decorate l); [discriminate | contradiction].
  - clear Hrec. unfold normalize. induction entries as [| x l IH]; [apply le_n |].
    cbn [flat_map length]. rewrite length_app.
    assert (length (normalize_entry x) <= 1).
    { destruct x as [| | | | | | d]; cbn [normalize_entry length]; try lia.
      destruct (dict_get (str "score") d); cbn [length]; lia. }
    lia.
  - induction Hrec as [| y l (d & v & -> & Hv) _ IH]; [reflexivity |].
    unfold normalize in *. cbn [flat_map]. rewrite (normalize_record _ Hv), IH.
    reflexivity.
Qed.


(** ** The whole program *)

Lemma raises_only_weaken {X A} (P Q : exn -> Prop) (m : M X A) :
  (forall e, P e -> Q e) -> raises_only P m -> raises_only Q m.
Proof. intros HPQ Hm s e E. apply HPQ. apply (Hm s e E). Qed.

Lemma settles_with_fuel {X A} b (f : nat -> M X A) :
  (forall fuel, settles fuel fuel (f fuel)) -> settles b b (with_fuel f).
Proof.
  intros H s Hs. unfold with_fuel.
  specialize (H (S (length (stdin (snd s)))) s (Nat.lt_succ_diag_r _)).
  destruct (f (S (length (stdin (snd s)))) s) as [[a | e |] s1]; auto. lia.
Qed.

Lemma settles_returns {X A} b (m : M X A) :
  (forall s, exists a s', m s = (Ret a, s') /\ stdin (snd s') = stdin (snd s)) ->
  settles b b m.
Proof.
  intros H s Hs. destruct (H s) as (a & s' & -> & Hin). rewrite Hin. exact Hs.
Qed.

Lemma show_returns (s : AdventureGame * World) :
  exists a s', show_high_scores s = (Ret a, s') /\ stdin (snd s') = stdin (snd s).
Proof.
  destruct s as [g w]. destruct (truthy (high_scores g)) eqn:Ht.
  - pose proof (show_keeps_or_clears g w Ht) as H. cbv zeta in H.
    destruct (show_high_scores (g, w)) as [o s']. cbn [fst snd] in *.
    destruct H as (-> & _ & Hin & _). exists tt, s'. split; [reflexivity | exact Hin].
  - unfold show_high_scores. run_io. rewrite Ht. cbn [negb].
    eexists _, _. split; reflexivity.
Qed.

Lemma load_returns (s : AdventureGame * World) :
  exists a s', load_high_scores s = (Ret a, s') /\ stdin (snd s') = stdin (snd s).
Proof.
  destruct s as [g [ins out file werr clock]]. unfold load_high_scores. run_io.
  destruct file as [| e | text]; [| | destruct (loads text)];
    run_io; eexists _, _; split; reflexivity.
Qed.

Lemma create_game_settles_any b : settles b b create_game.
Proof.
  unfold create_game.
  repeat (eapply settles_bind;
          [ first [ apply settles_print | apply settles_modify
                  | apply settles_input ] | intros ]).
  eapply settles_bind; [| intros; apply settles_print ].
  intros [g w] Hs. unfold at_root. cbn [fst snd] in *.
  destruct (root g) as [r |]; [| exact Hs].
  unfold with_fuel. cbn [fst snd].
  pose proof (@create_node_settles (S (length (stdin w))) (r, w)) as Hc.
  cbn [fst snd pred] in Hc. specialize (Hc (Nat.lt_succ_diag_r _)).
  destruct (_create_node (S (length (stdin w))) (r, w)) as [[[] | e |] [r' w']];
    cbn [fst snd] in *; auto; lia.
Qed.

Lemma play_game_settles_any b : settles b b play_game.
Proof.
  unfold play_game.
  eapply settles_bind; [apply settles_self | intros g].
  destruct (root g) as [root_node |]; [| apply settles_print].
  eapply settles_bind; [apply settles_print | intros _].
  eapply settles_bind; [apply settles_input | intros first].
  eapply settles_bind;
    [apply settles_with_fuel; intros; apply ask_name_settles | intros player_name].
  eapply settles_bind;
    [apply settles_with_fuel; intros; apply play_loop_settles | intros [total steps]].
  cbv beta iota.
  do 3 (eapply settles_bind; [apply settles_print | intros _]).
  eapply settles_bind.
  { apply settles_returns. intros [g0 w0]. rewrite print_journey_run.
    eexists _, _. split; reflexivity. }
  intros _.
  eapply settles_bind; [apply settles_world | intros w].
  eapply settles_bind.
  { unfold append_score. eapply settles_bind; [apply settles_self | intros g0].
    destruct (high_scores g0); first [apply settles_modify | apply settles_raise]. }
  intros _. apply settles_returns. intros [g0 w0].
  destruct (save_returns g0 w0) as [w' E]. rewrite E.
  eexists _, _. split; [reflexivity |].
  revert E. destruct w0 as [ins out file werr clock].
  unfold save_high_scores. run_io. destruct werr; run_io; intros E;
    injection E as <-; reflexivity.
Qed.

Lemma play_game_raises : raises_only play_error play_game.
Proof.
  intros s e E. pose proof (play_game_safe s) as [_ H].
  rewrite E in H. apply H.
Qed.

Lemma main_loop_settles fuel : settles fuel fuel (main_loop fuel).
Proof.
  induction fuel as [| fuel IH]; [intros s Hs; inversion Hs |].
  assert (IH' : settles fuel (S fuel) (main_loop fuel))
    by (eapply settles_weaken; [exact IH | lia]).
  cbn [main_loop].
  do 5 (eapply settles_bind; [apply settles_print | intros _]).
  eapply settles_bind; [apply settles_input_strict | intros picked].
  destruct (str_eqb picked (str "1")).
  { eapply settles_bind; [apply create_game_settles_any | intros _; exact IH']. }
  destruct (str_eqb picked (str "2")).
  { eapply settles_bind; [apply play_game_settles_any | intros _; exact IH']. }
  destruct (str_eqb picked (str "3")).
  { eapply settles_bind; [apply settles_returns; apply show_returns | intros _; exact IH']. }
  destruct (str_eqb picked (str "4")).
  { eapply settles_weaken; [apply settles_print | lia]. }
  eapply settles_bind; [apply settles_print | intros _; exact IH'].
Qed.

Lemma main_loop_raises fuel : raises_only session_error (main_loop fuel).
Proof.
  induction fuel as [| fuel IH]; [intros s e E; discriminate E |].
  cbn [main_loop].
  do 5 (apply raises_only_bind; [apply raises_only_print | intros _]).
  apply raises_only_bind; [apply raises_only_input; left; reflexivity | intros picked].
  destruct (str_eqb picked (str "1")).
  { apply raises_only_bind; [| intros _; exact IH].
    apply raises_only_weaken with (2 := create_game_raises).
    intros e [-> | ->]; [left | right; left]; reflexivity. }
  destruct (str_eqb picked (str "2")).
  { apply raises_only_bind; [| intros _; exact IH].
    apply raises_only_weaken with (2 := play_game_raises).
    intros e [-> | ->]; [left | right; right]; reflexivity. }
  destruct (str_eqb picked (str "3")).
  { apply raises_only_bind; [| intros _; exact IH].
    apply raises_only_quiet. intros s.
    destruct (show_returns s) as (a & s' & E & _). eexists _, _. exact E. }
  destruct (str_eqb picked (str "4")); [apply raises_only_print |].
  apply raises_only_bind; [apply raises_only_print | intros _; exact IH].
Qed.




(** *** The score file *)

Lemma load_of_saved (v : json) (g : AdventureGame) (w : World) :
  clean v -> score_file w = Content (dumps v) ->
  load_high_scores (g, w) = (Ret tt, (set_high_scores v g, w)).
Proof.
  intros Hclean Hfile. destruct w as [ins out file werr clock].
  cbn [score_file] in Hfile. subst file. unfold load_high_scores. run_io.
  rewrite loads_dumps by exact Hclean. reflexivity.
Qed.

Lemma save_then_new_game (g g0 : AdventureGame) (w : World) :
  clean (high_scores g) -> write_error w = None ->
  let saved := set_score_file (Content (dumps (high_scores g))) w in
  save_high_scores (g, w) = (Ret tt, (g, saved)) /\
  new_game (g0, saved) = (Ret tt, (mkGame None (high_scores g), saved)).
Proof.
  intros Hclean Herr saved. subst saved.
  destruct w as [ins out file werr clock]. cbn [write_error] in Herr. subst werr.
  split.
  - unfold save_high_scores. run_io. reflexivity.
  - unfold new_game, bind, modify. cbn [fst snd].
    rewrite load_of_saved with (v := high_scores g);
      [reflexivity | exact Hclean |].
    reflexivity.
Qed.


Lemma clean_score_entry name total date :
  clean_str name -> clean_str date -> clean (score_entry name total date).
Proof.
  intros Hname Hdate. unfold score_entry. apply clean_dict. split.
  - cbn [map fst]. repeat constructor;
      cbn [In]; intros H; repeat (destruct H as [H | H]; try discriminate H);
      exact H.
  - repeat constructor; cbn [fst snd clean]; try assumption; repeat constructor.
Qed.


Lemma record_well_formed r : well_formed (record_of r).
Proof.
  destruct r as [[name total] date]. split; [exists total | exists date]; reflexivity.
Qed.

Lemma record_row r : table_row (record_of r) = Some (table_line r).
Proof. destruct r as [[name total] date]. reflexivity. Qed.

Lemma record_normal rows : normalize (map record_of rows) = map record_of rows.
Proof.
  induction rows as [| [[name total] date] rows IH]; [reflexivity |].
  unfold normalize in *. cbn [map flat_map]. rewrite IH. reflexivity.
Qed.

Lemma records_of_permutation rows sorted :
  Permutation (map record_of rows) sorted ->
  exists rows', sorted = map record_of rows' /\ Permutation rows rows'.
Proof.
  intros H. apply Permutation_sym, Permutation_map_inv in H.
  destruct H as (rows' & -> & Hperm).
  exists rows'. split; [reflexivity | exact Hperm].
Qed.

Lemma sorted_scores_well_formed l :
  Forall well_formed l ->
  exists sorted,
    sorted_scores l = Some sorted /\ Permutation l sorted /\
    StronglySorted shown_before sorted.
Proof.
  intros Hl.
  destruct (decorate_well_formed Hl) as (d & Hd & Hmap & Hplain & Hkeyed).
  assert (Hrev : all_plain (rev d)).
  { unfold all_plain in *. rewrite Forall_forall in *. intros x Hx.
    apply Hplain. apply in_rev. exact Hx. }
  destruct (sort_ascending_sorted (l := rev d) (done := []) Hrev)
    as (out & Hout & Hperm & Hsorted); [constructor | constructor |].
  rewrite app_nil_r in Hperm.
  exists (rev (map snd out)). unfold sorted_scores. rewrite Hd, Hout.
  split; [reflexivity |]. split.
  - rewrite <- Hmap. rewrite <- Permutation_rev. apply Permutation_map.
    rewrite <- Hperm. apply Permutation_rev.
  - rewrite <- map_rev. apply sorted_rev in Hsorted.
    eapply sorted_map_weaken; [exact Hsorted |].
    intros x y Hx Hy Hxy. cbv beta in Hxy.
    assert (Hin : forall z, In z (rev out) -> In z d).
    { intros z Hz. apply in_rev in Hz.
      apply (Permutation_in _ (Permutation_sym Hperm)) in Hz.
      apply in_rev. exact Hz. }
    unfold all_plain in Hplain. rewrite Forall_forall in Hplain, Hkeyed.
    apply not_above_shown; auto.
Qed.

Lemma print_records_run rows : forall (g : AdventureGame) w,
  print_rows (map record_of rows) (g, w) =
  (Ret tt, (g, set_stdout (stdout w ++ map (fun r => Printed (table_line r)) rows) w)).
Proof.
  induction rows as [| r rows IH]; intros g w.
  - cbn. unfold ret. rewrite app_nil_r. destruct w; reflexivity.
  - cbn [map print_rows]. rewrite record_row. run_io.
    destruct w as [ins out file werr clock]. run_io. rewrite IH. run_io.
    rewrite <- app_assoc. reflexivity.
Qed.

Lemma show_normalized (g : AdventureGame) (w : World) (l : list json)
    (rows : list (pystr * Z * pystr)) :
  high_scores g = JList l -> l <> [] -> normalize l = map record_of rows ->
  exists listed,
    Permutation rows listed /\
    StronglySorted shown_before (map record_of listed) /\
    show_high_scores (g, w) =
    save_high_scores
      (set_high_scores (JList (map record_of rows)) g,
       set_stdout
         (stdout w ++
          [Printed (nl ++ str "High Scores:"); Printed table_head;
           Printed (rule 50)] ++
          map (fun r => Printed (table_line r)) listed) w).
Proof.
  intros Hscores Hne Hnorm.
  assert (Hwf : Forall well_formed (map record_of rows)).
  { apply Forall_forall. intros x Hx. apply in_map_iff in Hx.
    destruct Hx as (r & <- & _). apply record_well_formed. }
  destruct (sorted_scores_well_formed Hwf) as (sorted & Hsort & Hperm & Hsorted).
  destruct (records_of_permutation _ Hperm) as (listed & -> & Hperm').
  exists listed. split; [exact Hperm' |]. split; [exact Hsorted |].
  destruct g as [rt hs]. cbn [high_scores] in Hscores. subst hs.
  destruct w as [ins out file werr clock].
  unfold show_high_scores. run_io. cbn [high_scores truthy].
  destruct l as [| x l]; [contradiction |].
  cbn [is_nil negb]. unfold attempt.
  unfold or_raise at 1. cbn [iterate]. run_io.
  rewrite Hnorm, Hsort.
  unfold or_raise. run_io. rewrite print_records_run. run_io.
  unfold set_high_scores. cbn [root high_scores].
  destruct (save_returns (mkGame rt (JList (map record_of rows)))
              (mkWorld ins
                 ((((out ++ [Printed (nl ++ str "High Scores:")]) ++
                   [Printed table_head]) ++ [Printed (rule 50)]) ++
                  map (fun r0 => Printed (table_line r0)) listed)
                 file werr clock)) as [w' Hsave].
  rewrite <- !app_assoc in Hsave. cbn [app] in Hsave.
  rewrite <- !app_assoc. cbn [app]. rewrite Hsave. reflexivity.
Qed.




(** ** What a session keeps *)

Lemma guarded_bind {A B} P (m : M AdventureGame A) (k : A -> M AdventureGame B) :
  guarded P m -> (forall a, guarded P (k a)) -> guarded P (bind m k).
Proof.
  intros Hm Hk s Hs. unfold bind. specialize (Hm s Hs).
  destruct (m s) as [[a | e |] s1]; cbn [fst snd] in *; try exact Hm.
  apply Hk. exact Hm.
Qed.

Lemma guarded_terminal {A} (P : exn -> Prop) (m : M AdventureGame A) :
  terminal_only m -> raises_only P m -> guarded P m.
Proof.
  intros Ht Hr s Hs. destruct (Ht s) as (Hg & _). specialize (Hr s).
  destruct (fst (m s)) as [a | e |]; [rewrite Hg; exact Hs | apply Hr; reflexivity | exact I].
Qed.

Lemma guarded_print P line : guarded P (print line).
Proof.
  apply guarded_terminal; [apply terminal_only_print | apply raises_only_print].
Qed.

Lemma ask_name_eof {X} fuel : forall first,
  raises_only (fun e => e = EOFError) (@ask_name X fuel first).
Proof.
  induction fuel as [| fuel IH]; intros first; [intros s e E; discriminate E |].
  cbn [ask_name]. destruct (is_nil (strip first)); [| apply raises_only_ret].
  apply raises_only_bind; [apply raises_only_input; reflexivity | intros; apply IH].
Qed.

(** In a story with both children or neither at every node, a play
    finds the child of every option it takes. *)
Lemma play_loop_complete {X} fuel : forall n t c,
  both_or_neither n = true ->
  raises_only (fun e => e = EOFError) (@play_loop X fuel n t c).
Proof.
  induction fuel as [| fuel IH]; intros n t c Hn; [intros s e E; discriminate E |].
  cbn [play_loop].
  do 2 (apply raises_only_bind; [apply raises_only_print | intros _]).
  destruct n as [text t1 t2 s1 s2 o1 o2].
  cbn [both_or_neither is_ending option1 option2] in *.
  destruct o1 as [a |], o2 as [b |]; try discriminate Hn.
  - apply andb_prop in Hn. destruct Hn as [Ha Hb].
    do 3 (apply raises_only_bind; [apply raises_only_print | intros _]).
    apply raises_only_bind; [apply raises_only_input; reflexivity | intros picked].
    destruct (str_eqb picked (str "1")); [apply IH; exact Ha |].
    destruct (str_eqb picked (str "2")); [apply IH; exact Hb |].
    apply raises_only_bind; [apply raises_only_print | intros _].
    apply IH. cbn [both_or_neither option1 option2]. rewrite Ha, Hb. reflexivity.
  - apply raises_only_bind; [apply raises_only_print | intros _].
    apply raises_only_ret.
Qed.

Lemma eof_is_input_error {X A} (m : M X A) :
  raises_only (fun e => e = EOFError) m -> raises_only input_error m.
Proof.
  intros H. apply raises_only_weaken with (2 := H). intros e ->. left. reflexivity.
Qed.

Lemma play_game_guarded : guarded input_error play_game.
Proof.
  intros [g w] Hs. destruct Hs as [Hroot Hlist]. cbn [fst] in Hroot, Hlist.
  remember (play_game (g, w)) as run eqn:Erun.
  unfold play_game in Erun. unfold bind at 1 in Erun. unfold self in Erun.
  cbn [fst snd] in Erun.
  destruct (root g) as [r |] eqn:Hr.
  - assert (Hrun : guarded input_error
      (print (nl ++ str "Welcome to the Adventure Game!");;
       first <- input (str "Please enter your name: ");;
       player_name <- with_fuel (fun fuel => ask_name fuel first);;
       played <- with_fuel (fun fuel => play_loop fuel r 0 []);;
       (let (total_score, choices_made) := played : Z * list Step in
        print (nl ++ str "Game Over, " ++ player_name ++ str "!");;
        print (str "Your total score: " ++ repr_int total_score);;
        print (nl ++ str "Your journey:");;
        print_journey 1 choices_made;;
        w <- world;;
        append_score (score_entry player_name total_score (now w));;
        save_high_scores))).
    { apply guarded_bind; [apply guarded_print | intros _].
      apply guarded_bind.
      { apply guarded_terminal; [apply terminal_only_input |].
        apply raises_only_input. left. reflexivity. }
      intros first. apply guarded_bind.
      { apply guarded_terminal.
        - apply with_fuel_terminal_only. intros. apply ask_name_terminal_only.
        - apply with_fuel_raises. intros. apply eof_is_input_error, ask_name_eof. }
      intros player_name. apply guarded_bind.
      { apply guarded_terminal.
        - apply with_fuel_terminal_only. intros. apply play_loop_terminal_only.
        - apply with_fuel_raises. intros.
          apply eof_is_input_error, play_loop_complete. exact Hroot. }
      intros [total steps]. cbv beta iota.
      do 3 (apply guarded_bind; [apply guarded_print | intros _]).
      apply guarded_bind.
      { apply guarded_terminal; [apply print_journey_terminal_only |].
        apply raises_only_quiet. intros s0.
        destruct (print_journey_returns steps 1 s0) as [s1 E]. eexists _, _. exact E. }
      intros _. intros [g1 w1] [Hr1 [l Hl]]. run_io. unfold append_score. run_io.
      cbn [fst] in Hl. rewrite Hl. run_io.
      match goal with
      | |- context [save_high_scores (?g0, ?w0)] =>
          destruct (save_returns g0 w0) as [w' ->]
      end.
      cbn [fst snd]. split; [exact Hr1 | eexists; reflexivity]. }
    subst run. apply Hrun. cbn [fst]. unfold sound. rewrite Hr.
    split; [exact Hroot | exact Hlist].
  - subst run. cbn [print fst snd]. unfold sound. rewrite Hr.
    split; [exact I | exact Hlist].
Qed.

Lemma create_game_complete (g : AdventureGame) (w : World) g' w' :
  create_game (g, w) = (Ret tt, (g', w')) ->
  (exists r, root g' = Some r /\ both_or_neither r = true) /\
  high_scores g' = high_scores g.
Proof.
  unfold create_game. intros Hrun.
  do 4 step_ret Hrun. step_ret Hrun.
  apply print_ret_inv in Hrun. cbn [fst snd] in Hrun.
  unfold at_root in Hstep. cbn [fst snd root set_root] in Hstep.
  unfold with_fuel in Hstep. cbn [fst snd] in Hstep.
  match type of Hstep with
  | (let (_, _) := ?run in _) = _ => destruct run as [o [r' w1]] eqn:Hnode
  end.
  cbn [fst snd] in Hstep. inversion Hstep; subst.
  inversion Hrun; subst. cbn [root set_root high_scores]. split; [| reflexivity].
  exists r'. split; [reflexivity |].
  match type of Hnode with _ = (Ret ?u, _) => destruct u end.
  eapply create_node_both_or_neither; [exact Hnode | reflexivity].
Qed.

Lemma create_game_guarded : guarded input_error create_game.
Proof.
  intros [g w] [_ [l Hl]]. cbn [fst] in Hl.
  pose proof (create_game_raises (g, w)) as Hexc.
  destruct (create_game (g, w)) as [[[] | e |] [g' w']] eqn:Hrun; cbn [fst snd] in *.
  - apply create_game_complete in Hrun. destruct Hrun as [(r & Hr & Hbn) Hs].
    split; [rewrite Hr; exact Hbn | exists l; rewrite Hs; exact Hl].
  - apply Hexc. reflexivity.
  - exact I.
Qed.

Lemma show_guarded : guarded (fun _ => False) show_high_scores.
Proof.
  intros [g w] [Hroot Hlist]. cbn [fst] in *.
  destruct (truthy (high_scores g)) eqn:Ht.
  - pose proof (show_keeps_or_clears g w Ht) as H. cbv zeta in H.
    destruct H as (-> & -> & _). split; [exact Hroot | eexists; reflexivity].
  - unfold show_high_scores. run_io. rewrite Ht. cbn. split; assumption.
Qed.

Lemma guarded_weaken {A} (P Q : exn -> Prop) (m : M AdventureGame A) :
  (forall e, P e -> Q e) -> guarded P m -> guarded Q m.
Proof.
  intros HPQ Hm s Hs. specialize (Hm s Hs).
  destruct (fst (m s)); auto.
Qed.

Lemma main_loop_guarded fuel : guarded input_error (main_loop fuel).
Proof.
  induction fuel as [| fuel IH]; [intros s Hs; exact I |].
  cbn [main_loop].
  do 5 (apply guarded_bind; [apply guarded_print | intros _]).
  apply guarded_bind.
  { apply guarded_terminal; [apply terminal_only_input |].
    apply raises_only_input. left. reflexivity. }
  intros picked.
  destruct (str_eqb picked (str "1")).
  { apply guarded_bind; [apply create_game_guarded | intros _; exact IH]. }
  destruct (str_eqb picked (str "2")).
  { apply guarded_bind; [apply play_game_guarded | intros _; exact IH]. }
  destruct (str_eqb picked (str "3")).
  { apply guarded_bind; [| intros _; exact IH].
    apply guarded_weaken with (2 := show_guarded). intros e []. }
  destruct (str_eqb picked (str "4")); [apply guarded_print |].
  apply guarded_bind; [apply guarded_print | intros _; exact IH].
Qed.




(** ** Scores typed while authoring *)

Lemma int_eq s :
  int s =
  match rstrip int_space (lstrip int_space s) with
  | c :: s' =>
      if N.eqb c 45 then option_map Z.opp (int_unsigned s')
      else if N.eqb c 43 then int_unsigned s'
      else int_unsigned (c :: s')
  | [] => int_unsigned []
  end.
Proof.
  unfold int. destruct (rstrip int_space (lstrip int_space s)) as [| c s'];
    [reflexivity |].
  destruct (N.eqb_spec c 45) as [-> | H45]; [reflexivity |].
  destruct (N.eqb_spec c 43) as [-> | H43]; [reflexivity |].
  destruct c as [| p]; [reflexivity |].
  do 6 (destruct p as [p | p |]; try reflexivity); contradiction.
Qed.

Lemma int_digits_all s : forall acc,
  Forall (fun c => is_digit c = true) s ->
  int_digits acc false s =
  Some (fold_left (fun a c => (a * 10 + digit_val c)%Z) s acc).
Proof.
  induction s as [| c s IH]; intros acc Hs; [reflexivity |].
  inversion Hs as [| ? ? Hc Hs']; subst. cbn [int_digits fold_left].
  rewrite Hc. apply IH. exact Hs'.
Qed.

Lemma int_unsigned_digits c s :
  Forall (fun c => is_digit c = true) (c :: s) ->
  int_unsigned (c :: s) = Some (digits_value (c :: s)).
Proof.
  intros Hs. inversion Hs as [| ? ? Hc Hs']; subst.
  cbn [int_unsigned]. rewrite Hc. rewrite int_digits_all by exact Hs'.
  unfold digits_value. cbn [fold_left]. reflexivity.
Qed.

Lemma lstrip_spaces sp before s :
  Forall (fun c => sp c = true) before -> lstrip sp (before ++ s) = lstrip sp s.
Proof.
  induction 1 as [| c before Hc _ IH]; [reflexivity |].
  cbn [app lstrip]. rewrite Hc. exact IH.
Qed.

Lemma lstrip_head sp c s : sp c = false -> lstrip sp (c :: s) = c :: s.
Proof. intros H. cbn [lstrip]. rewrite H. reflexivity. Qed.

(** The decimal text of an integer: an optional minus sign and digits,
    the first and the last of which are no white space. *)
Lemma repr_int_shape z :
  exists c digits,
    Forall (fun c => is_digit c = true) (c :: digits) /\
    digits_value (c :: digits) = Z.abs z /\
    repr_int z = (if Z.ltb z 0 then [45%N] else []) ++ c :: digits.
Proof.
  destruct z as [| p | p].
  - exists 48%N, []. repeat split. constructor; [reflexivity | constructor].
  - destruct (to_uint_head p) as (c & rest & Hd & Hc & Hz).
    pose proof (uint_digits (Pos.to_uint p)) as Hall.
    pose proof (digits_value_uint (Pos.to_uint p)) as Hval.
    rewrite DecimalPos.Unsigned.of_to in Hval. rewrite Hd in Hall, Hval.
    exists c, rest. split; [exact Hall |]. split; [exact Hval |].
    unfold repr_int, Z.to_int, NilZero.string_of_int. rewrite Hz, Hd. reflexivity.
  - destruct (to_uint_head p) as (c & rest & Hd & Hc & Hz).
    pose proof (uint_digits (Pos.to_uint p)) as Hall.
    pose proof (digits_value_uint (Pos.to_uint p)) as Hval.
    rewrite DecimalPos.Unsigned.of_to in Hval. rewrite Hd in Hall, Hval.
    exists c, rest. split; [exact Hall |]. split; [exact Hval |].
    unfold repr_int, Z.to_int, NilZero.string_of_int. rewrite Hz.
    change (str (String "-" (NilEmpty.string_of_uint (Pos.to_uint p))))
      with (45%N :: str (NilEmpty.string_of_uint (Pos.to_uint p))).
    rewrite Hd. reflexivity.
Qed.

Lemma digit_no_space c : is_digit c = true -> int_space c = false.
Proof.
  unfold is_digit, int_space, in_range. intros H. apply andb_prop in H.
  destruct H as [Hlo Hhi]. apply N.leb_le in Hlo, Hhi.
  replace (N.leb c 13) with false by (symmetry; apply N.leb_gt; lia).
  replace (N.eqb c 32) with false by (symmetry; apply N.eqb_neq; lia).
  replace (N.ltb 127 c) with false by (symmetry; apply N.ltb_ge; lia).
  rewrite !andb_false_r. reflexivity.
Qed.

Lemma rstrip_spaces sp s after :
  Forall (fun c => sp c = true) after ->
  (forall c s', rev s = c :: s' -> sp c = false) ->
  rstrip sp (s ++ after) = s.
Proof.
  intros Hafter Hlast. unfold rstrip. rewrite rev_app_distr.
  rewrite lstrip_spaces by (apply Forall_rev; exact Hafter).
  destruct (rev s) as [| c s'] eqn:Hrev.
  - apply (f_equal (@rev N)) in Hrev. rewrite rev_involutive in Hrev.
    subst s. reflexivity.
  - rewrite lstrip_head by (eapply Hlast; reflexivity).
    rewrite <- Hrev. apply rev_involutive.
Qed.

(** X19: a score typed in decimal is the score read.  [int] applied to
    the decimal text of any integer, with any white space before and
    after it, gives that integer. *)
Theorem typed_score_is_read (z : Z) (before after : pystr) :
  Forall (fun c => int_space c = true) before ->
  Forall (fun c => int_space c = true) after ->
  int (before ++ repr_int z ++ after) = Some z.
Proof.
  intros Hbefore Hafter.
  destruct (repr_int_shape z) as (c & digits & Hall & Hval & Hrepr).
  assert (Hlast : forall x s', rev (repr_int z) = x :: s' -> int_space x = false).
  { intros x s' Hrev. apply digit_no_space.
    assert (Hin : In x (c :: digits)).
    { assert (Hx : In x (rev (repr_int z))) by (rewrite Hrev; left; reflexivity).
      apply in_rev in Hx. rewrite Hrepr in Hx. apply in_app_or in Hx.
      destruct Hx as [Hx | Hx]; [| exact Hx].
      exfalso. rewrite Hrepr, rev_app_distr in Hrev. cbn [rev] in Hrev.
      destruct (rev digits) as [| y ys] eqn:Hd; cbn [app] in Hrev.
      - injection Hrev as <- _. rewrite Forall_forall in Hall.
        specialize (Hall c (or_introl eq_refl)).
        destruct (Z.ltb z 0); [| contradiction].
        destruct Hx as [<- | []]. discriminate Hall.
      - injection Hrev as <- _. rewrite Forall_forall in Hall.
        assert (Hy : In y digits) by (apply in_rev; rewrite Hd; left; reflexivity).
        specialize (Hall y (or_intror Hy)).
        destruct (Z.ltb z 0); [| contradiction].
        destruct Hx as [<- | []]. discriminate Hall. }
    rewrite Forall_forall in Hall. apply Hall. exact Hin. }
  rewrite int_eq. rewrite lstrip_spaces by exact Hbefore.
  assert (Hhead : exists x s', repr_int z = x :: s' /\ int_space x = false).
  { rewrite Hrepr. destruct (Z.ltb z 0); cbn [app].
    - eexists _, _. split; reflexivity.
    - eexists _, _. split; [reflexivity |]. apply digit_no_space.
      inversion Hall; assumption. }
  destruct Hhead as (x & s' & Hx & Hsp).
  rewrite Hx. cbn [app]. rewrite lstrip_head by exact Hsp.
  change (x :: s' ++ after) with ((x :: s') ++ after). rewrite <- Hx.
  rewrite rstrip_spaces; [| exact Hafter | exact Hlast].
  rewrite Hrepr. destruct (Z.ltb_spec z 0) as [Hneg | Hpos]; cbn [app].
  - change (N.eqb 45 45) with true. cbv iota.
    rewrite int_unsigned_digits by exact Hall. rewrite Hval. cbn [option_map].
    f_equal. lia.
  - assert (Hc : is_digit c = true) by (inversion Hall; assumption).
    replace (N.eqb c 45) with false.
    2: { symmetry. apply N.eqb_neq. intros ->. discriminate Hc. }
    replace (N.eqb c 43) with false.
    2: { symmetry. apply N.eqb_neq. intros ->. discriminate Hc. }
    rewrite int_unsigned_digits by exact Hall. rewrite Hval. f_equal. lia.
Qed.

Lemma lstrip_keeps sp x : forall s,
  In x s -> sp x = false -> In x (lstrip sp s).
Proof.
  induction s as [| c s IH]; intros Hin Hx; [contradiction |].
  cbn [lstrip]. destruct (sp c) eqn:Hc; [| exact Hin].
  destruct Hin as [-> | Hin]; [congruence | apply IH; assumption].
Qed.

Lemma rstrip_keeps sp x s : In x s -> sp x = false -> In x (rstrip sp s).
Proof.
  intros Hin Hx. unfold rstrip. apply -> in_rev.
  apply lstrip_keeps; [apply in_rev in Hin; exact Hin | exact Hx].
Qed.

Lemma int_digits_chars s : forall acc b z,
  int_digits acc b s = Some z ->
  Forall (fun c => is_digit c = true \/ c = 95%N) s.
Proof.
  induction s as [| c s IH]; intros acc b z H; [constructor |].
  cbn [int_digits] in H. destruct (is_digit c) eqn:Hd.
  - constructor; [left; exact Hd | eapply IH; exact H].
  - destruct (N.eqb_spec c 95) as [-> | Hne]; cbn [andb] in H; [| discriminate].
    destruct (negb b); [| discriminate].
    constructor; [right; reflexivity | eapply IH; exact H].
Qed.

Lemma int_unsigned_chars s z :
  int_unsigned s = Some z -> Forall (fun c => is_digit c = true \/ c = 95%N) s.
Proof.
  destruct s as [| c s]; [discriminate |]. cbn [int_unsigned].
  destruct (is_digit c) eqn:Hc; [| discriminate]. intros H.
  constructor; [left; exact Hc | eapply int_digits_chars; exact H].
Qed.

(** X20: what is no score.  A line that holds an ASCII character other
    than a digit, white space, a sign and an underscore, and a line
    that is empty or blank, make [int] raise [ValueError]. *)
Theorem other_lines_are_no_score (line : pystr) :
  (exists c, In c line /\ (c < 128)%N /\ is_digit c = false /\
             int_space c = false /\ c <> 43%N /\ c <> 45%N /\ c <> 95%N) \/
  Forall (fun c => int_space c = true) line ->
  int line = None.
Proof.
  intros [(c & Hin & _ & Hd & Hsp & H43 & H45 & H95) | Hblank].
  - destruct (int line) as [z |] eqn:Hint; [exfalso | reflexivity].
    rewrite int_eq in Hint.
    assert (Hcore : In c (rstrip int_space (lstrip int_space line))).
    { apply rstrip_keeps; [apply lstrip_keeps; assumption | exact Hsp]. }
    destruct (rstrip int_space (lstrip int_space line)) as [| x s'];
      [contradiction |].
    assert (Hbad : forall s z, In c s -> int_unsigned s = Some z -> False).
    { intros s z0 Hc Hs. apply int_unsigned_chars in Hs.
      rewrite Forall_forall in Hs. destruct (Hs c Hc); congruence. }
    destruct (N.eqb_spec x 45) as [-> | Hx45].
    { destruct Hcore as [<- | Hc]; [congruence |].
      destruct (int_unsigned s') as [z0 |] eqn:Hs; [| discriminate].
      eapply Hbad; eassumption. }
    destruct (N.eqb_spec x 43) as [-> | Hx43].
    { destruct Hcore as [<- | Hc]; [congruence |]. eapply Hbad; eassumption. }
    eapply Hbad; eassumption.
  - rewrite int_eq.
    rewrite <- (app_nil_r line). rewrite lstrip_spaces by exact Hblank.
    reflexivity.
Qed.

End Properties.

(** * Closed examples *)

Lemma created_tree_both_or_neither_witness :
  exists r,
    root (fst (snd (create_game (fresh_game, typed fork_lines)))) = Some r /\
    both_or_neither r = true.
Proof.
  eapply created_tree_both_or_neither with (g := fresh_game) (w := typed fork_lines).
  vm_compute. reflexivity.
Defined.

(** C2 as stated fails: a score for option 2 that is not an integer
    stops authoring with the root holding its first child only. *)
Lemma failed_authoring_leaves_one_child :
  let s := create_game
             (fresh_game,
              typed [str "start"; str "n"; str "left"; str "5"; str "l";
                     str "right"; str "five"]) in
  fst s = Exc ValueError /\
  exists r, root (fst (snd s)) = Some r /\
    option1 r = Some (new_node (str "l")) /\ option2 r = None /\
    both_or_neither r = false.
Proof.
  vm_compute. split; [reflexivity |].
  eexists. repeat split.
Qed.



Lemma invalid_choices_retried_witness :
  with_fuel (fun fuel => play_loop fuel fork 0 [])
    (fresh_game, typed [str "3"; str "x"; []; str "1"]) =
  with_fuel (fun fuel => play_loop fuel fork 0 [])
    (fresh_game,
     set_stdin [str "1"]
       (set_stdout
          (invalid_events fork ++ invalid_events fork ++ invalid_events fork)
          (typed [str "3"; str "x"; []; str "1"]))).
Proof.
  rewrite (@invalid_choices_retried _ fresh_game fork 0 []
             (typed [str "3"; str "x"; []; str "1"])
             [str "3"; str "x"; []] [str "1"]).
  - cbn [flat_map]. rewrite app_nil_r. reflexivity.
  - reflexivity.
  - repeat constructor; discriminate.
  - reflexivity.
Defined.



Lemma fork_is_scripted : scripted fork fork_script.
Proof.
  exact (@scripted_options (str "start") (str "n") (str "left") (str "5") 5
           (str "right") (str "-3") (-3)
           (new_node (str "l")) (new_node (str "r")) [str "y"] [str "Y"]
           eq_refl eq_refl eq_refl
           (@scripted_ending (str "l") (str "y") eq_refl)
           (@scripted_ending (str "r") (str "Y") eq_refl)).
Defined.




Lemma menu_rejects_then_exits_witness :
  fst (with_fuel main_loop (fork_game, typed [str "9"; str "play"; str "4"; str "1"]))
  = Ret tt.
Proof.
  rewrite (@menu_rejects_then_exits one_float fork_game
             (typed [str "9"; str "play"; str "4"; str "1"])
             [str "9"; str "play"] [str "1"]).
  - reflexivity.
  - repeat constructor; discriminate.
  - reflexivity.
Defined.




Lemma one_score_is_clean : clean (JList [one_score]).
Proof.
  apply clean_list. constructor; [| constructor].
  apply clean_score_entry; repeat constructor.
Defined.







Lemma typed_score_is_read_witness :
  int ([32%N] ++ repr_int (-3) ++ [32%N; 10%N]) = Some (-3)%Z.
Proof.
  refine (@typed_score_is_read (-3) [32%N] [32%N; 10%N] _ _); repeat constructor.
Defined.

Lemma other_lines_are_no_score_witness : int (str "1.5") = None.
Proof.
  refine (@other_lines_are_no_score (str "1.5") (or_introl (ex_intro _ 46%N _))).
  repeat split; try discriminate. right. left. reflexivity.
Defined.
